(** * lil-gamae: the arena server of [main.go]

    A shallow embedding of the simulation engine: the world state store
    ([GameState]), the per-connection message handler (the body of the read
    loop of [handleConn]), the physics tick ([updateProjectiles]) and the
    broadcast tick with its round reset ([broadcastState]).

    [main.go] carries an earlier version of the server after the current
    one; the current one (lines 1-232) is what is embedded here.

    Conventions of the embedding.
    - Coordinates are Go [float64] values: the kernel's binary64 floats
      ([PrimFloat.float]) with their IEEE comparisons and rounding.
    - [time.Time] is a number of nanoseconds ([Z]); [time.Now()] and
      [uuid.New()] are inputs of the step that calls them.
    - The store holds [*Player] pointers, and a session keeps the pointer to
      its own player: player objects live in a [heap] indexed by locations,
      and the [Players] map sends an id to a location.
    - Every critical section (the code between [Mutex.Lock] and
      [Mutex.Unlock]) is one atomic step on [GameState].
    - A [range] over a Go map visits its keys in an unspecified order: each
      loop takes the order as an argument. *)

From Stdlib Require Import ZArith Floats.
From stdpp Require Import gmap strings list fin_maps.

(** ** Time *)

Definition Time : Type := Z.

Definition Millisecond : Z := 1000000.
Definition Second : Z := 1000 * Millisecond.

(** [t.Add(d)] *)
Definition Time_Add (t : Time) (d : Z) : Time := (t + d)%Z.

(** [t.After(u)]: strictly later. *)
Definition Time_After (t u : Time) : bool := (u <? t)%Z.

(** ** Data model *)

(** Address of a [Player] object. *)
Definition loc : Type := positive.

Module Player.

Record t : Type := mk {
  ID : string;
  X : float;
  Y : float;
  Dead : bool;
  Conn : N
}.

(** [p.X = x; p.Y = y] *)
Definition setXY (x y : float) (p : t) : t :=
  {| ID := ID p; X := x; Y := y; Dead := Dead p; Conn := Conn p |}.

(** [p.Dead = b] *)
Definition setDead (b : bool) (p : t) : t :=
  {| ID := ID p; X := X p; Y := Y p; Dead := b; Conn := Conn p |}.

End Player.

Module Projectile.

Record t : Type := mk {
  ID : string;
  Owner : string;
  X : float;
  Y : float;
  DX : float;
  DY : float;
  Speed : float;
  Expiry : Time
}.

(** [proj.X += proj.DX * proj.Speed; proj.Y += proj.DY * proj.Speed] *)
Definition advance (proj : t) : t :=
  {| ID := ID proj; Owner := Owner proj;
     X := PrimFloat.add (X proj) (PrimFloat.mul (DX proj) (Speed proj));
     Y := PrimFloat.add (Y proj) (PrimFloat.mul (DY proj) (Speed proj));
     DX := DX proj; DY := DY proj; Speed := Speed proj;
     Expiry := Expiry proj |}.

End Projectile.

Module Move.

Record t : Type := mk { X : float; Y : float }.

End Move.

Module Shoot.

Record t : Type := mk { DX : float; DY : float }.

End Shoot.

Module ClientAction.

Record t : Type := mk { Move : Move.t; Shoot : Shoot.t }.

End ClientAction.

(** The global [gameState].  [heap] holds the objects behind the [*Player]
    pointers; projectiles are only ever reached through their map. *)
Record GameState : Type := mkGameState {
  heap : gmap loc Player.t;
  Players : gmap string loc;
  Projectiles : gmap string Projectile.t
}.

(** The player object registered under key [k], if any. *)
Definition playerAt (gs : GameState) (k : string) : option Player.t :=
  Players gs !! k ≫= λ l, heap gs !! l.

(** ** Session: the body of the read loop of [handleConn] *)

(** Lines 75-87: a new connection [conn].  [playerID] is the value of
    [uuid.New()] and [l] the address of the [Player] object allocated at
    line 77. *)
Definition onConnect (l : loc) (playerID : string) (conn : N)
    (gs : GameState) : GameState :=
  {| heap := <[l := {| Player.ID := playerID;
                       Player.X := 50%float; Player.Y := 50%float;
                       Player.Dead := false; Player.Conn := conn |}]> (heap gs);
     Players := <[playerID := l]> (Players gs);
     Projectiles := Projectiles gs |}.

(** Lines 131-133: the session whose player object is at [player] ends.  The
    object stays where it is; the store forgets it. *)
Definition onDisconnect (player : loc) (gs : GameState) : GameState :=
  match heap gs !! player with
  | None => gs
  | Some p =>
      {| heap := heap gs;
         Players := delete (Player.ID p) (Players gs);
         Projectiles := Projectiles gs |}
  end.

(** Go's [a != 0 || b != 0] on float64. *)
Definition nonzero (a b : float) : bool :=
  negb (PrimFloat.eqb a 0%float) || negb (PrimFloat.eqb b 0%float).

(** Lines 109-112. *)
Definition applyMove (move : Move.t) (player : Player.t) : Player.t :=
  if nonzero (Move.X move) (Move.Y move)
  then Player.setXY (Move.X move) (Move.Y move) player
  else player.

(** Lines 115-124. *)
Definition newProjectile (projectileID : string) (player : Player.t)
    (shoot : Shoot.t) (now : Time) : Projectile.t :=
  {| Projectile.ID := projectileID;
     Projectile.Owner := Player.ID player;
     Projectile.X := Player.X player;
     Projectile.Y := Player.Y player;
     Projectile.DX := Shoot.DX shoot;
     Projectile.DY := Shoot.DY shoot;
     Projectile.Speed := 15%float;
     Projectile.Expiry := Time_Add now (5 * Second) |}.

(** Lines 113-126. *)
Definition applyShoot (projectileID : string) (player : Player.t)
    (shoot : Shoot.t) (now : Time)
    (projs : gmap string Projectile.t) : gmap string Projectile.t :=
  if nonzero (Shoot.DX shoot) (Shoot.DY shoot)
  then <[projectileID := newProjectile projectileID player shoot now]> projs
  else projs.

(** Lines 108-127: one decoded message of the session whose player object is
    at [player].  [projectileID] is the value [uuid.New()] would return and
    [now] the value of [time.Now()]. *)
Definition onMessage (player : loc) (msg : ClientAction.t)
    (projectileID : string) (now : Time) (gs : GameState) : GameState :=
  match heap gs !! player with
  | None => gs
  | Some p =>
      let p' := applyMove (ClientAction.Move msg) p in
      {| heap := <[player := p']> (heap gs);
         Players := Players gs;
         Projectiles :=
           applyShoot projectileID p' (ClientAction.Shoot msg) now
             (Projectiles gs) |}
  end.

(** What the session reads from outside for one message. *)
Record Inbound : Type := mkInbound {
  action : ClientAction.t;
  fresh_uuid : string;
  clock : Time
}.

(** Lines 100-128 on a sequence of successfully decoded messages. *)
Definition handleConn_loop (player : loc) (inputs : list Inbound)
    (gs : GameState) : GameState :=
  foldl (λ st i, onMessage player (action i) (fresh_uuid i) (clock i) st)
        gs inputs.

(** The last move of a sequence that has a nonzero axis, if there is one. *)
Definition lastMove (moves : list Move.t) : option Move.t :=
  last (filter (λ mv, nonzero (Move.X mv) (Move.Y mv) = true) moves).

Definition position (p : Player.t) : float * float := (Player.X p, Player.Y p).

(** ** Ranging over a map *)

(** [keys] is an order in which [for k := range m] may visit [m]: every key
    once. *)
Definition is_range {A : Type} (m : gmap string A) (keys : list string) : Prop :=
  NoDup keys ∧ ∀ k, k ∈ keys ↔ is_Some (m !! k).

(** ** Physics tick: the body of the loop of [updateProjectiles] *)

(** What one tick does, statement by statement. *)
Inductive Event : Type :=
| EvExpire (id : string)      (* line 199: delete of an expired projectile *)
| EvAdvance (id : string)     (* lines 203-204: the projectile moves *)
| EvTest (id k : string)      (* line 209: hitbox test against player [k] *)
| EvHit (id k : string).      (* lines 210-211: delete, [player.Dead = true] *)

(** Line 209. *)
Definition overlap (player : Player.t) (proj : Projectile.t) : bool :=
  PrimFloat.ltb (PrimFloat.sub (Player.X player) 40%float) (Projectile.X proj)
  && PrimFloat.ltb (Projectile.X proj) (PrimFloat.add (Player.X player) 40%float)
  && PrimFloat.ltb (PrimFloat.sub (Player.Y player) 40%float) (Projectile.Y proj)
  && PrimFloat.ltb (Projectile.Y proj) (PrimFloat.add (Player.Y player) 40%float).

(** Lines 210-211. *)
Definition hit (id : string) (l : loc) (player : Player.t)
    (gs : GameState) : GameState :=
  {| heap := <[l := Player.setDead true player]> (heap gs);
     Players := Players gs;
     Projectiles := delete id (Projectiles gs) |}.

(** Lines 205-214: the loop over the players, visited in the order [keys],
    for the projectile [proj] stored under [id]. *)
Fixpoint scanPlayers (id : string) (proj : Projectile.t) (keys : list string)
    (gs : GameState) : GameState * list Event :=
  match keys with
  | [] => (gs, [])
  | k :: keys' =>
      match Players gs !! k with
      | None => scanPlayers id proj keys' gs
      | Some l =>
          match heap gs !! l with
          | None => scanPlayers id proj keys' gs
          | Some player =>
              if decide (Player.ID player = Projectile.Owner proj)
              then scanPlayers id proj keys' gs
              else if overlap player proj
              then (hit id l player gs, [EvTest id k; EvHit id k])
              else
                let '(gs', tr) := scanPlayers id proj keys' gs in
                (gs', EvTest id k :: tr)
          end
      end
  end.

(** Line 199. *)
Definition expire (id : string) (gs : GameState) : GameState :=
  {| heap := heap gs; Players := Players gs;
     Projectiles := delete id (Projectiles gs) |}.

(** Lines 203-204: the projectile stored under [id] becomes [proj']. *)
Definition moveTo (id : string) (proj' : Projectile.t)
    (gs : GameState) : GameState :=
  {| heap := heap gs; Players := Players gs;
     Projectiles := <[id := proj']> (Projectiles gs) |}.

(** Lines 198-214: the body of the loop over the projectiles, for key [id]. *)
Definition stepProjectile (now : Time) (keys : list string) (id : string)
    (gs : GameState) : GameState * list Event :=
  match Projectiles gs !! id with
  | None => (gs, [])
  | Some proj =>
      if Time_After now (Projectile.Expiry proj)
      then (expire id gs, [EvExpire id])
      else
        let proj' := Projectile.advance proj in
        let '(gs', tr) := scanPlayers id proj' keys (moveTo id proj' gs) in
        (gs', EvAdvance id :: tr)
  end.

(** Lines 194-217: one tick at time [now].  The projectiles are visited in
    the order [projOrder]; the players, for projectile [id], in the order
    [plOrder id]. *)
Fixpoint updateProjectiles_tick (now : Time) (plOrder : string → list string)
    (projOrder : list string) (gs : GameState) : GameState * list Event :=
  match projOrder with
  | [] => (gs, [])
  | id :: rest =>
      let '(gs1, tr1) := stepProjectile now (plOrder id) id gs in
      let '(gs2, tr2) := updateProjectiles_tick now plOrder rest gs1 in
      (gs2, tr1 ++ tr2)
  end.

(** The events of a trace that are about projectile [id]. *)
Definition about (id : string) (e : Event) : bool :=
  match e with
  | EvExpire i | EvAdvance i | EvTest i _ | EvHit i _ => bool_decide (i = id)
  end.

(** The two statements that delete a projectile. *)
Definition removes (id : string) (e : Event) : bool :=
  match e with
  | EvExpire i | EvHit i _ => bool_decide (i = id)
  | _ => false
  end.

Definition kills (id : string) (e : Event) : bool :=
  match e with
  | EvHit i _ => bool_decide (i = id)
  | _ => false
  end.

Definition count (f : Event → bool) (tr : list Event) : nat :=
  length (List.filter f tr).

(** ** Broadcast tick: the body of the loop of [broadcastState] *)

Record Snapshot : Type := mkSnapshot {
  snapPlayers : gmap string Player.t;
  snapProjectiles : gmap string Projectile.t
}.

(** Lines 143-157: the copy that is sent. *)
Definition snapshot (gs : GameState) : Snapshot :=
  {| snapPlayers := omap (λ l, heap gs !! l) (Players gs);
     snapProjectiles := Projectiles gs |}.

(** Lines 159-164. *)
Definition countAlive (keys : list string) (gs : GameState) : Z :=
  foldl (λ stillAlive k,
           match playerAt gs k with
           | Some player =>
               if negb (Player.Dead player) then (stillAlive + 1)%Z
               else stillAlive
           | None => stillAlive
           end) 0%Z keys.

(** Lines 169-175: [writeFails c] tells whether [WriteJSON] fails on the
    connection [c]. *)
Fixpoint sendAll (writeFails : N → bool) (keys : list string)
    (gs : GameState) : GameState :=
  match keys with
  | [] => gs
  | k :: keys' =>
      match playerAt gs k with
      | None => sendAll writeFails keys' gs
      | Some player =>
          if writeFails (Player.Conn player)
          then sendAll writeFails keys'
                 {| heap := heap gs;
                    Players := delete (Player.ID player) (Players gs);
                    Projectiles := Projectiles gs |}
          else sendAll writeFails keys' gs
      end
  end.

(** Lines 181-183. *)
Definition respawn (player : Player.t) : Player.t :=
  Player.setXY 50%float 50%float (Player.setDead false player).

(** Lines 180-184: the reset mutation.  (The three seconds slept at line 179
    pass with the lock held; no state changes meanwhile.) *)
Definition resetPlayers (keys : list string) (gs : GameState) : GameState :=
  foldl (λ st k,
           match Players st !! k with
           | Some l =>
               {| heap := alter respawn l (heap st);
                  Players := Players st;
                  Projectiles := Projectiles st |}
           | None => st
           end) gs keys.

Record Broadcast : Type := mkBroadcast {
  sent : Snapshot;
  reset : bool;
  after : GameState
}.

(** Lines 142-186 with no other goroutine running in between: [reset] tells
    whether the branch of line 177 was taken. *)
Definition broadcastState_tick (writeFails : N → bool)
    (countOrder sendOrder resetOrder : list string)
    (gs : GameState) : Broadcast :=
  let state := snapshot gs in
  let stillAlive := countAlive countOrder gs in
  let gs1 := sendAll writeFails sendOrder gs in
  if (stillAlive =? 1)%Z
  then {| sent := state; reset := true; after := resetPlayers resetOrder gs1 |}
  else {| sent := state; reset := false; after := gs1 |}.

(** Line 161 for the player registered under [k]. *)
Definition aliveAt (gs : GameState) (k : string) : bool :=
  match playerAt gs k with
  | Some player => negb (Player.Dead player)
  | None => false
  end.

(** Player [k] of the store is alive. *)
Definition living (gs : GameState) (k : string) : Prop :=
  ∃ player, playerAt gs k = Some player ∧ Player.Dead player = false.

(** Exactly one player of the store is alive. *)
Definition oneSurvivor (gs : GameState) : Prop :=
  ∃ k, living gs k ∧ ∀ k', living gs k' → k' = k.

(** ** Specification vocabulary for the physics tick *)

(** Player [k] of the store is not the owner of [proj]. *)
Definition candidate (gs : GameState) (proj : Projectile.t) (k : string) : Prop :=
  ∃ player, playerAt gs k = Some player
            ∧ Player.ID player ≠ Projectile.Owner proj.

(** The two ways the loop over the players can end: no candidate among
    [keys] overlaps [proj], or the candidate [k] is the first that does. *)
Inductive Scan (id : string) (proj : Projectile.t) (keys : list string)
    (gs : GameState) : GameState → list Event → Prop :=
| Scan_miss (ks : list string) :
    Forall (candidate gs proj) ks →
    (∀ k player, k ∈ keys → playerAt gs k = Some player →
       Player.ID player ≠ Projectile.Owner proj →
       overlap player proj = false) →
    Scan id proj keys gs gs (EvTest id <$> ks)
| Scan_hit (ks : list string) (k : string) (l : loc) (player : Player.t) :
    Forall (candidate gs proj) ks →
    k ∈ keys →
    Players gs !! k = Some l →
    heap gs !! l = Some player →
    Player.ID player ≠ Projectile.Owner proj →
    overlap player proj = true →
    Scan id proj keys gs (hit id l player gs)
         ((EvTest id <$> ks) ++ [EvTest id k; EvHit id k]).

(** A tick changes a player object, if at all, by setting its flag. *)
Definition markedDead (h h' : gmap loc Player.t) (l : loc) : Prop :=
  ∃ player, h !! l = Some player ∧ h' !! l = Some (Player.setDead true player).

(** [gs'] is a store [gs] may have become in the course of a tick, as far
    as the players go. *)
Definition evolves (gs gs' : GameState) : Prop :=
  Players gs' = Players gs
  ∧ ∀ l, heap gs' !! l = heap gs !! l ∨ markedDead (heap gs) (heap gs') l.

(** What the body of the loop over the projectiles does for key [id]. *)
Inductive Step (now : Time) (keys : list string) (id : string)
    (gs : GameState) : GameState → list Event → Prop :=
| Step_absent :
    Projectiles gs !! id = None →
    Step now keys id gs gs []
| Step_expired (proj : Projectile.t) :
    Projectiles gs !! id = Some proj →
    (Projectile.Expiry proj < now)%Z →
    Step now keys id gs (expire id gs) [EvExpire id]
| Step_live (proj : Projectile.t) (gs' : GameState) (tr : list Event) :
    Projectiles gs !! id = Some proj →
    (now ≤ Projectile.Expiry proj)%Z →
    Scan id (Projectile.advance proj) keys
         (moveTo id (Projectile.advance proj) gs) gs' tr →
    Step now keys id gs gs' (EvAdvance id :: tr).

(** The events one tick can log about one projectile. *)
Inductive Shape (id : string) : list Event → Prop :=
| Shape_absent : Shape id []
| Shape_expired : Shape id [EvExpire id]
| Shape_flying (ks : list string) :
    Shape id (EvAdvance id :: (EvTest id <$> ks))
| Shape_hit (ks : list string) (k : string) :
    Shape id (EvAdvance id :: (EvTest id <$> ks) ++ [EvTest id k; EvHit id k]).

(** Two stores that differ at most in the [Dead] flags of their players. *)
Definition sameButDead (gs1 gs2 : GameState) : Prop :=
  Players gs1 = Players gs2
  ∧ Projectiles gs1 = Projectiles gs2
  ∧ ∀ l, Player.setDead false <$> heap gs1 !! l
         = Player.setDead false <$> heap gs2 !! l.

(** The hitbox test in the words of the specification:
    [|player.x - proj.x| < 40 AND |player.y - proj.y| < 40]. *)
Definition overlap_spec (player : Player.t) (proj : Projectile.t) : bool :=
  PrimFloat.ltb
    (PrimFloat.abs (PrimFloat.sub (Player.X player) (Projectile.X proj)))
    40%float
  && PrimFloat.ltb
       (PrimFloat.abs (PrimFloat.sub (Player.Y player) (Projectile.Y proj)))
       40%float.

(** ** Example worlds *)

Definition spawned (id : string) (conn : N) : Player.t :=
  {| Player.ID := id; Player.X := 50%float; Player.Y := 50%float;
     Player.Dead := false; Player.Conn := conn |}.

Definition alice : Player.t := spawned "a" 1.
Definition bob : Player.t := spawned "b" 2.

(** One connected player. *)
Definition lonely : GameState :=
  {| heap := {[ 1%positive := alice ]};
     Players := {[ "a" := 1%positive ]};
     Projectiles := ∅ |}.

(** Two connected players. *)
Definition arena : GameState :=
  {| heap := {[ 1%positive := alice; 2%positive := bob ]};
     Players := {[ "a" := 1%positive; "b" := 2%positive ]};
     Projectiles := ∅ |}.

(** A projectile of [alice], fired at time 0 from the spawn point towards
    +x. *)
Definition shot : Projectile.t :=
  newProjectile "p" alice {| Shoot.DX := 1%float; Shoot.DY := 0%float |} 0%Z.

(** [arena] with [shot] in flight. *)
Definition duel : GameState :=
  {| heap := heap arena; Players := Players arena;
     Projectiles := {[ "p" := shot ]} |}.

(** [duel] after [bob] was hit. *)
Definition graveyard : GameState :=
  {| heap := {[ 1%positive := alice; 2%positive := Player.setDead true bob ]};
     Players := Players arena;
     Projectiles := {[ "p" := shot ]} |}.

(** [shot] alone in the store. *)
Definition range_only : GameState :=
  {| heap := ∅; Players := ∅; Projectiles := {[ "p" := shot ]} |}.

(** A player far out on the x axis, and a projectile of somebody else at the
    very same point. *)
Definition farPlayer : Player.t :=
  Player.setXY 1e18%float 50%float bob.

Definition farShot : Projectile.t :=
  {| Projectile.ID := "p"; Projectile.Owner := "a";
     Projectile.X := 1e18%float; Projectile.Y := 50%float;
     Projectile.DX := 0%float; Projectile.DY := 0%float;
     Projectile.Speed := 15%float; Projectile.Expiry := 5000000000%Z |}.

(** The float64 value of a small integer. *)
Definition ofZ (z : Z) : float :=
  if (z <? 0)%Z
  then PrimFloat.opp (PrimFloat.of_uint63 (Uint63.of_Z (- z)))
  else PrimFloat.of_uint63 (Uint63.of_Z z).

(** [bob] standing at [(x, 50)], and a projectile of [alice] at [(x, 50)]. *)
Definition bobAt (x : Z) : Player.t := Player.setXY (ofZ x) 50%float bob.

Definition shotAt (x : Z) : Projectile.t :=
  {| Projectile.ID := "p"; Projectile.Owner := "a";
     Projectile.X := ofZ x; Projectile.Y := 50%float;
     Projectile.DX := 1%float; Projectile.DY := 0%float;
     Projectile.Speed := 15%float; Projectile.Expiry := 5000000000%Z |}.

(** A client message: move to [(x, y)] and shoot towards [(dx, dy)]. *)
Definition message (x y dx dy : float) : ClientAction.t :=
  {| ClientAction.Move := {| Move.X := x; Move.Y := y |};
     ClientAction.Shoot := {| Shoot.DX := dx; Shoot.DY := dy |} |}.

(** Three messages read by one session: a move, a shot without a move, and
    a second move. *)
Definition session_inputs : list Inbound :=
  [ {| action := message 10 20 0 0; fresh_uuid := "q1"; clock := 100%Z |};
    {| action := message 0 0 1 0; fresh_uuid := "q2"; clock := 200%Z |};
    {| action := message 30 0 0 0; fresh_uuid := "q3"; clock := 300%Z |} ].

(** [arena] after [alice] and [bob] have shot each other in one tick. *)
Definition stalemate : GameState :=
  {| heap := {[ 1%positive := Player.setDead true alice;
                2%positive := Player.setDead true bob ]};
     Players := Players arena;
     Projectiles := ∅ |}.

Definition carol : Player.t := spawned "c" 3.

(** [duel] with a third player on the spawn point. *)
Definition trio : GameState :=
  {| heap := {[ 1%positive := alice; 2%positive := bob; 3%positive := carol ]};
     Players := {[ "a" := 1%positive; "b" := 2%positive; "c" := 3%positive ]};
     Projectiles := {[ "p" := shot ]} |}.

(** The server before any connection. *)
Definition boot : GameState :=
  {| heap := ∅; Players := ∅; Projectiles := ∅ |}.

(** ** The rest of the server *)

(** How the handshake of lines 68-97 ends. *)
Inductive Handshake : Type :=
| UpgradeFailed      (* line 69: no player is created *)
| AnnounceFailed     (* line 93: the id could not be sent, line 95 runs *)
| Established.

(** Lines 67-135 for one connection, with no other goroutine running in
    between: the handshake, the messages that were read, and the removal of
    the player.  Line 95 is the same [delete] as line 132. *)
Definition handleConn (h : Handshake) (l : loc) (playerID : string) (conn : N)
    (inputs : list Inbound) (gs : GameState) : GameState :=
  match h with
  | UpgradeFailed => gs
  | AnnounceFailed => onDisconnect l (onConnect l playerID conn gs)
  | Established =>
      onDisconnect l (handleConn_loop l inputs (onConnect l playerID conn gs))
  end.

(** The atomic steps of the server: what the goroutines do to the store
    between two points where another goroutine may run.  [step_connect]
    allocates the player object at an address that is not in use. *)
Inductive ServerStep (gs : GameState) : GameState → Prop :=
| step_connect (l : loc) (playerID : string) (conn : N) :
    heap gs !! l = None →
    ServerStep gs (onConnect l playerID conn gs)
| step_message (l : loc) (msg : ClientAction.t) (projectileID : string)
    (now : Time) :
    ServerStep gs (onMessage l msg projectileID now gs)
| step_disconnect (l : loc) :
    ServerStep gs (onDisconnect l gs)
| step_physics (now : Time) (plOrder : string → list string)
    (projOrder : list string) :
    ServerStep gs (updateProjectiles_tick now plOrder projOrder gs).1
| step_send (writeFails : N → bool) (keys : list string) :
    ServerStep gs (sendAll writeFails keys gs)
| step_reset (keys : list string) :
    ServerStep gs (resetPlayers keys gs).

(** The stores the server can be in. *)
Definition reachable (gs : GameState) : Prop := rtc ServerStep boot gs.

(** Every key of [Players] leads to a player object, and to one that carries
    that key as its [ID]. *)
Definition keyed (gs : GameState) : Prop :=
  ∀ k l, Players gs !! k = Some l →
         ∃ p, heap gs !! l = Some p ∧ Player.ID p = k.

(** Every projectile is stored under its [ID], flies at speed 15, and is
    owned by a player that has connected. *)
Definition projectilesKeyed (gs : GameState) : Prop :=
  ∀ id proj, Projectiles gs !! id = Some proj →
    Projectile.ID proj = id
    ∧ Projectile.Speed proj = 15%float
    ∧ ∃ l p, heap gs !! l = Some p ∧ Player.ID p = Projectile.Owner proj.

(** Player objects stay where they are and keep their [ID]. *)
Definition idsKept (gs gs' : GameState) : Prop :=
  ∀ l p, heap gs !! l = Some p →
         ∃ p', heap gs' !! l = Some p' ∧ Player.ID p' = Player.ID p.

(** Two projectiles that differ at most in their position. *)
Definition sameFlight (proj proj' : Projectile.t) : Prop :=
  Projectile.ID proj' = Projectile.ID proj
  ∧ Projectile.Owner proj' = Projectile.Owner proj
  ∧ Projectile.DX proj' = Projectile.DX proj
  ∧ Projectile.DY proj' = Projectile.DY proj
  ∧ Projectile.Speed proj' = Projectile.Speed proj
  ∧ Projectile.Expiry proj' = Projectile.Expiry proj.

(** [WriteJSON] fails on the connection of the player registered under [k]. *)
Definition dropped (writeFails : N → bool) (gs : GameState) (k : string) : bool :=
  match playerAt gs k with
  | Some p => writeFails (Player.Conn p)
  | None => false
  end.

(** Player [k] of the store is not the owner of [proj] and [proj] is inside
    its hitbox. *)
Definition target (gs : GameState) (proj : Projectile.t) (k : string) : Prop :=
  ∃ player, playerAt gs k = Some player
            ∧ Player.ID player ≠ Projectile.Owner proj
            ∧ overlap player proj = true.

(** No player of the store is alive. *)
Definition allDead (gs : GameState) : Prop := ∀ k, ¬ living gs k.

(** The player object at [l] is not in the store. *)
Definition detached (gs : GameState) (l : loc) : Prop :=
  ∀ k, Players gs !! k ≠ Some l.

(** * Properties *)

(** ** The example worlds are states of the server *)

Example lonely_reached : onConnect 1%positive "a" 1 boot = lonely.
Proof. reflexivity. Qed.

Example arena_reached : onConnect 2%positive "b" 2 lonely = arena.
Proof. reflexivity. Qed.

Example duel_reached :
  onMessage 1%positive (message 0 0 1 0) "p" 0%Z arena = duel.
Proof. reflexivity. Qed.

(** [alice] shoots, the projectile reaches [bob] on the next tick, and
    [alice] shoots again. *)
Example graveyard_reached :
  onMessage 1%positive (message 0 0 1 0) "p" 0%Z
    (updateProjectiles_tick 16000000%Z (λ _, ["a"; "b"]) ["p"] duel).1
  = graveyard.
Proof. reflexivity. Qed.

(** Both players leave while the projectile of [alice] is in flight. *)
Example range_only_reached :
  Projectiles (onDisconnect 2%positive (onDisconnect 1%positive duel))
    = Projectiles range_only
  ∧ Players (onDisconnect 2%positive (onDisconnect 1%positive duel))
    = Players range_only.
Proof. split; reflexivity. Qed.

(** [bob] moves far out, and so does [alice], who shoots from there: one
    tick later her projectile is still at the point of [bob]. *)
Example far_reached :
  let gs1 := onMessage 2%positive (message 1e18 50 0 0) "q" 0%Z arena in
  let gs2 := onMessage 1%positive (message 1e18 50 1 0) "p" 0%Z gs1 in
  let gs3 := (updateProjectiles_tick 16000000%Z (λ _, ["a"; "b"]) ["p"] gs2).1 in
  playerAt gs3 "b" = Some farPlayer
  ∧ (Projectile.X <$> Projectiles gs3 !! "p") = Some (Projectile.X farShot)
  ∧ (Projectile.Y <$> Projectiles gs3 !! "p") = Some (Projectile.Y farShot)
  ∧ (Projectile.Owner <$> Projectiles gs3 !! "p") = Some "a".
Proof. split_and!; reflexivity. Qed.

(** ** Session *)

Lemma applyMove_ID move p : Player.ID (applyMove move p) = Player.ID p.
Proof. unfold applyMove. by destruct (nonzero _ _). Qed.

Lemma applyMove_Dead move p : Player.Dead (applyMove move p) = Player.Dead p.
Proof. unfold applyMove. by destruct (nonzero _ _). Qed.

Lemma applyMove_position move p :
  position (applyMove move p) =
    if nonzero (Move.X move) (Move.Y move)
    then (Move.X move, Move.Y move) else position p.
Proof. unfold applyMove. by destruct (nonzero _ _). Qed.

Lemma onMessage_self player msg pid now gs p :
  heap gs !! player = Some p →
  heap (onMessage player msg pid now gs) !! player
    = Some (applyMove (ClientAction.Move msg) p).
Proof.
  intros Hp. unfold onMessage. rewrite Hp. simpl. apply lookup_insert_eq.
Qed.

(** A message of one session leaves the players of the others alone. *)
Lemma onMessage_other player msg pid now gs other :
  other ≠ player →
  heap (onMessage player msg pid now gs) !! other = heap gs !! other.
Proof.
  intros Hne. unfold onMessage. destruct (heap gs !! player); [|done].
  simpl. by apply lookup_insert_ne.
Qed.

Lemma onMessage_Players player msg pid now gs :
  Players (onMessage player msg pid now gs) = Players gs.
Proof. unfold onMessage. by destruct (heap gs !! player). Qed.

Lemma onMessage_Projectiles player msg pid now gs p :
  heap gs !! player = Some p →
  Projectiles (onMessage player msg pid now gs)
    = applyShoot pid (applyMove (ClientAction.Move msg) p)
        (ClientAction.Shoot msg) now (Projectiles gs).
Proof. intros Hp. unfold onMessage. by rewrite Hp. Qed.

Lemma lastMove_app_one moves mv :
  lastMove (moves ++ [mv]) =
    if nonzero (Move.X mv) (Move.Y mv) then Some mv else lastMove moves.
Proof.
  unfold lastMove. rewrite filter_app.
  destruct (nonzero (Move.X mv) (Move.Y mv)) eqn:E.
  - rewrite filter_cons_True by done. rewrite filter_nil. apply last_snoc.
  - rewrite filter_cons_False by (rewrite E; done).
    rewrite filter_nil. by rewrite app_nil_r.
Qed.

Lemma handleConn_loop_snoc player inputs i gs :
  handleConn_loop player (inputs ++ [i]) gs
    = onMessage player (action i) (fresh_uuid i) (clock i)
        (handleConn_loop player inputs gs).
Proof. unfold handleConn_loop. by rewrite foldl_app. Qed.

Lemma handleConn_loop_position player inputs : ∀ gs p,
  heap gs !! player = Some p →
  ∃ p', heap (handleConn_loop player inputs gs) !! player = Some p'
        ∧ position p' =
            match lastMove ((λ i, ClientAction.Move (action i)) <$> inputs) with
            | Some mv => (Move.X mv, Move.Y mv)
            | None => position p
            end.
Proof.
  induction inputs as [|i inputs IH] using rev_ind; intros gs p Hp.
  - exists p. by split.
  - destruct (IH gs p Hp) as (q & Hq & Hpos).
    exists (applyMove (ClientAction.Move (action i)) q). split.
    + rewrite handleConn_loop_snoc. by apply onMessage_self.
    + rewrite fmap_app. simpl. rewrite lastMove_app_one, applyMove_position.
      by destruct (nonzero _ _).
Qed.

(** C4: after any sequence of messages handled for a session, the position of
    its player is the last move that had a nonzero axis (the position it
    started from when there was none): positions are set, never added up; and
    a message whose move has both axes zero leaves the position as it was. *)
Theorem C4_position_is_last_nonzero_move
    (player : loc) (p : Player.t) (gs : GameState) :
  heap gs !! player = Some p →
  (∀ inputs : list Inbound,
     ∃ p', heap (handleConn_loop player inputs gs) !! player = Some p'
           ∧ position p' =
               match lastMove ((λ i, ClientAction.Move (action i)) <$> inputs) with
               | Some mv => (Move.X mv, Move.Y mv)
               | None => position p
               end)
  ∧ (∀ msg projectileID now,
       nonzero (Move.X (ClientAction.Move msg)) (Move.Y (ClientAction.Move msg))
         = false →
       ∃ p', heap (onMessage player msg projectileID now gs) !! player = Some p'
             ∧ position p' = position p).
Proof.
  intros Hp. split.
  - intros inputs. by apply handleConn_loop_position.
  - intros msg pid now Hz. eexists. split; [by apply onMessage_self|].
    by rewrite applyMove_position, Hz.
Qed.

Lemma applyShoot_fresh pid p shoot now (projs : gmap string Projectile.t) :
  projs !! pid = None →
  nonzero (Shoot.DX shoot) (Shoot.DY shoot) = true →
  size (applyShoot pid p shoot now projs) = S (size projs)
  ∧ dom (applyShoot pid p shoot now projs) = {[pid]} ∪ dom projs
  ∧ ∀ id, id ≠ pid → applyShoot pid p shoot now projs !! id = projs !! id.
Proof.
  intros Hfresh Hnz. unfold applyShoot. rewrite Hnz. split_and!.
  - by apply map_size_insert_None.
  - apply dom_insert_L.
  - intros id Hid. by apply lookup_insert_ne.
Qed.

(** C5: a message whose shoot vector has both axes zero creates no
    projectile.  One with a nonzero axis creates exactly one, under the fresh
    id: owned by the sender, placed at the sender's coordinates as they are
    after the move of the same message, flying in the direction supplied, and
    expiring five seconds after its creation. *)
Theorem C5_shoot_creates_one_projectile
    (player : loc) (p : Player.t) (msg : ClientAction.t)
    (projectileID : string) (now : Time) (gs : GameState) :
  heap gs !! player = Some p →
  Projectiles gs !! projectileID = None →
  let move := ClientAction.Move msg in
  let shoot := ClientAction.Shoot msg in
  let gs' := onMessage player msg projectileID now gs in
  ∃ p', heap gs' !! player = Some p'
    ∧ position p' = (if nonzero (Move.X move) (Move.Y move)
                     then (Move.X move, Move.Y move) else position p)
    ∧ (nonzero (Shoot.DX shoot) (Shoot.DY shoot) = false →
         Projectiles gs' = Projectiles gs)
    ∧ (nonzero (Shoot.DX shoot) (Shoot.DY shoot) = true →
         size (Projectiles gs') = S (size (Projectiles gs))
         ∧ dom (Projectiles gs') = {[projectileID]} ∪ dom (Projectiles gs)
         ∧ (∀ id, id ≠ projectileID →
              Projectiles gs' !! id = Projectiles gs !! id)
         ∧ ∃ proj, Projectiles gs' !! projectileID = Some proj
             ∧ Projectile.ID proj = projectileID
             ∧ Projectile.Owner proj = Player.ID p
             ∧ (Projectile.X proj, Projectile.Y proj) = position p'
             ∧ (Projectile.DX proj, Projectile.DY proj)
                 = (Shoot.DX shoot, Shoot.DY shoot)
             ∧ Projectile.Speed proj = 15%float
             ∧ Projectile.Expiry proj = (now + 5000000000)%Z).
Proof.
  intros Hp Hfresh move shoot gs'.
  exists (applyMove move p). split; [by apply onMessage_self|].
  split; [apply applyMove_position|].
  subst gs'. rewrite (onMessage_Projectiles _ _ _ _ _ _ Hp). fold move shoot.
  split.
  - intros Hz. unfold applyShoot. by rewrite Hz.
  - intros Hnz.
    destruct (applyShoot_fresh projectileID (applyMove move p) shoot now
                _ Hfresh Hnz) as (Hsize & Hdom & Hother).
    split_and!; try done.
    exists (newProjectile projectileID (applyMove move p) shoot now).
    split_and!; try done.
    + unfold applyShoot. rewrite Hnz. apply lookup_insert_eq.
    + simpl. apply applyMove_ID.
Qed.

(** C10: the [Dead] flag does not gate the handling of a message.  For a dead
    player the move is applied and the shot fired exactly as if the player
    were alive: the two runs end with the same projectiles and the same player
    but for the flag, which stays set. *)
Theorem C10_dead_player_still_acts
    (player : loc) (p : Player.t) (msg : ClientAction.t)
    (projectileID : string) (now : Time) (gs : GameState) :
  heap gs !! player = Some p →
  Player.Dead p = true →
  let move := ClientAction.Move msg in
  let shoot := ClientAction.Shoot msg in
  let revived :=
    {| heap := <[player := Player.setDead false p]> (heap gs);
       Players := Players gs; Projectiles := Projectiles gs |} in
  let gs' := onMessage player msg projectileID now gs in
  let alive' := onMessage player msg projectileID now revived in
  Players gs' = Players alive'
  ∧ Projectiles gs' = Projectiles alive'
  ∧ (∃ p' q', heap gs' !! player = Some p'
       ∧ heap alive' !! player = Some q'
       ∧ Player.Dead q' = false
       ∧ p' = Player.setDead true q')
  ∧ (nonzero (Move.X move) (Move.Y move) = true →
       ∃ p', heap gs' !! player = Some p'
         ∧ position p' = (Move.X move, Move.Y move))
  ∧ (nonzero (Shoot.DX shoot) (Shoot.DY shoot) = true →
       ∃ proj, Projectiles gs' !! projectileID = Some proj
         ∧ Projectile.Owner proj = Player.ID p
         ∧ (Projectile.DX proj, Projectile.DY proj)
             = (Shoot.DX shoot, Shoot.DY shoot)).
Proof.
  intros Hp Hdead move shoot revived gs' alive'.
  assert (Hq : heap revived !! player = Some (Player.setDead false p))
    by apply lookup_insert_eq.
  assert (Hgs' : heap gs' !! player = Some (applyMove move p))
    by (by apply onMessage_self).
  assert (Hprojs : Projectiles gs' = Projectiles alive').
  { subst gs' alive'.
    rewrite (onMessage_Projectiles _ _ _ _ _ _ Hp).
    rewrite (onMessage_Projectiles _ _ _ _ _ _ Hq).
    fold move shoot. simpl. unfold applyShoot.
    destruct (nonzero (Shoot.DX shoot) _); [|done].
    f_equal. unfold newProjectile, applyMove.
    by destruct (nonzero (Move.X move) _). }
  split_and!.
  - subst gs' alive'. unfold onMessage. by rewrite Hp, Hq.
  - done.
  - exists (applyMove move p), (applyMove move (Player.setDead false p)).
    split_and!; [done|by apply onMessage_self|by rewrite applyMove_Dead|].
    unfold applyMove. destruct (nonzero (Move.X move) _); destruct p; simpl in *;
      by subst.
  - intros Hnz. exists (applyMove move p). split; [done|].
    by rewrite applyMove_position, Hnz.
  - intros Hnz. exists (newProjectile projectileID (applyMove move p) shoot now).
    split_and!; try done.
    + subst gs'. rewrite (onMessage_Projectiles _ _ _ _ _ _ Hp).
      fold move shoot. unfold applyShoot. rewrite Hnz. apply lookup_insert_eq.
    + simpl. apply applyMove_ID.
Qed.

(** ** The hitbox test *)



Example overlap_inside : overlap bob (Projectile.advance shot) = true.
Proof. reflexivity. Qed.

Example overlap_left_edge :
  overlap bob {| Projectile.ID := "p"; Projectile.Owner := "a";
                 Projectile.X := 10%float; Projectile.Y := 50%float;
                 Projectile.DX := 1%float; Projectile.DY := 0%float;
                 Projectile.Speed := 15%float; Projectile.Expiry := 0%Z |}
    = false.
Proof. reflexivity. Qed.

Example overlap_right_edge :
  overlap bob {| Projectile.ID := "p"; Projectile.Owner := "a";
                 Projectile.X := 90%float; Projectile.Y := 50%float;
                 Projectile.DX := 1%float; Projectile.DY := 0%float;
                 Projectile.Speed := 15%float; Projectile.Expiry := 0%Z |}
    = false.
Proof. reflexivity. Qed.

(** Near the origin the edges are exact and the test is the distance test of
    the specification: checked for every player at integer x in [-60, 60]
    and every projectile at integer x in [-120, 120]. *)
Example overlap_is_distance_test_near_origin :
  forallb (λ px, forallb (λ qx, Bool.eqb (overlap (bobAt px) (shotAt qx))
                                  (overlap_spec (bobAt px) (shotAt qx)))
                   (seqZ (-120) 241))
          (seqZ (-60) 121) = true.
Proof. vm_compute. reflexivity. Qed.

Example overlap_boundary_near_origin :
  forallb (λ px, negb (overlap (bobAt px) (shotAt (px - 40)))
                 && negb (overlap (bobAt px) (shotAt (px + 40)))
                 && overlap (bobAt px) (shotAt (px - 39))
                 && overlap (bobAt px) (shotAt (px + 39)))
          (seqZ (-60) 121) = true.
Proof. vm_compute. reflexivity. Qed.



(** ** Physics tick: the loop over the players *)

Lemma Scan_skip id proj k keys gs gs' tr :
  (∀ player, playerAt gs k = Some player →
     Player.ID player = Projectile.Owner proj) →
  Scan id proj keys gs gs' tr →
  Scan id proj (k :: keys) gs gs' tr.
Proof.
  intros Hk HS. destruct HS as [ks Hks Hmiss|ks k0 l player Hks Hin Hl Hp Hne Hov].
  - apply Scan_miss; [done|]. intros k' player [->|Hin]%elem_of_cons Hat Hne.
    + by destruct Hne, (Hk player Hat).
    + by eapply Hmiss.
  - eapply Scan_hit; try done. by apply list_elem_of_further.
Qed.

Lemma Scan_test id proj k keys gs gs' tr player :
  playerAt gs k = Some player →
  Player.ID player ≠ Projectile.Owner proj →
  overlap player proj = false →
  Scan id proj keys gs gs' tr →
  Scan id proj (k :: keys) gs gs' (EvTest id k :: tr).
Proof.
  intros Hat Hne Hov HS.
  assert (Hc : candidate gs proj k) by (by exists player).
  destruct HS as [ks Hks Hmiss|ks k0 l p0 Hks Hin Hl Hp Hne0 Hov0].
  - apply (Scan_miss id proj (k :: keys) gs (k :: ks)); [by constructor|].
    intros k' p' [->|Hin]%elem_of_cons Hat' Hne'.
    + congruence.
    + by eapply Hmiss.
  - apply (Scan_hit id proj (k :: keys) gs (k :: ks) k0 l p0); try done.
    + by constructor.
    + by apply list_elem_of_further.
Qed.

Lemma scanPlayers_Scan id proj keys gs :
  Scan id proj keys gs (scanPlayers id proj keys gs).1
       (scanPlayers id proj keys gs).2.
Proof.
  induction keys as [|k keys IH]; simpl.
  - apply (Scan_miss id proj [] gs []); [constructor|].
    intros k player Hin. by apply elem_of_nil in Hin.
  - destruct (Players gs !! k) as [l|] eqn:Hl.
    2:{ apply Scan_skip; [|done]. unfold playerAt. rewrite Hl. by intros. }
    destruct (heap gs !! l) as [player|] eqn:Hp.
    2:{ apply Scan_skip; [|done]. unfold playerAt. rewrite Hl. simpl.
        rewrite Hp. by intros. }
    assert (Hat : playerAt gs k = Some player).
    { unfold playerAt. rewrite Hl. simpl. by rewrite Hp. }
    destruct (decide (Player.ID player = Projectile.Owner proj)) as [Heq|Hne].
    { apply Scan_skip; [|done]. intros p'. rewrite Hat. by intros [= <-]. }
    destruct (overlap player proj) eqn:Hov.
    + simpl. apply (Scan_hit id proj (k :: keys) gs [] k l player); try done.
      by apply list_elem_of_here.
    + destruct (scanPlayers id proj keys gs) as [gs' tr]. simpl in *.
      by eapply Scan_test.
Qed.

Lemma Scan_Players id proj keys gs gs' tr :
  Scan id proj keys gs gs' tr → Players gs' = Players gs.
Proof. by intros []. Qed.

Lemma Scan_Projectiles id proj keys gs gs' tr :
  Scan id proj keys gs gs' tr →
  Projectiles gs' = Projectiles gs
  ∨ Projectiles gs' = delete id (Projectiles gs) ∧ ∃ k, EvHit id k ∈ tr.
Proof.
  intros [|ks k]; [by left|right]. split; [done|]. exists k.
  rewrite elem_of_app. right. apply list_elem_of_further, list_elem_of_here.
Qed.

Lemma Scan_heap id proj keys gs gs' tr :
  Scan id proj keys gs gs' tr →
  ∀ l, heap gs' !! l = heap gs !! l
       ∨ (markedDead (heap gs) (heap gs') l
          ∧ ∃ k, EvHit id k ∈ tr ∧ Players gs !! k = Some l).
Proof.
  intros [|ks k l0 player Hks Hin Hl Hp Hne Hov] l; [by left|].
  simpl. destruct (decide (l = l0)) as [->|Hll].
  - right. split.
    + exists player. split; [done|]. apply lookup_insert_eq.
    + exists k. split; [|done]. rewrite elem_of_app. right.
      apply list_elem_of_further, list_elem_of_here.
  - left. by apply lookup_insert_ne.
Qed.

Lemma Scan_about id proj keys gs gs' tr :
  Scan id proj keys gs gs' tr → Forall (λ e, about id e = true) tr.
Proof.
  assert (Htests : ∀ ks, Forall (λ e, about id e = true) (EvTest id <$> ks)).
  { intros ks. apply Forall_fmap, Forall_true. intros k. simpl.
    by apply bool_decide_eq_true. }
  intros [ks|ks k]; [done|]. apply Forall_app. split; [done|].
  repeat constructor; simpl; by apply bool_decide_eq_true.
Qed.

(** ** Physics tick: one projectile *)

Lemma stepProjectile_Step now keys id gs :
  Step now keys id gs (stepProjectile now keys id gs).1
       (stepProjectile now keys id gs).2.
Proof.
  unfold stepProjectile.
  destruct (Projectiles gs !! id) as [proj|] eqn:Hproj; [|by constructor].
  unfold Time_After. destruct (Z.ltb_spec (Projectile.Expiry proj) now).
  - by eapply Step_expired.
  - pose proof (scanPlayers_Scan id (Projectile.advance proj) keys
                  (moveTo id (Projectile.advance proj) gs)) as HS.
    destruct (scanPlayers _ _ _ _) as [gs' tr]. by eapply Step_live.
Qed.

Lemma Step_Players now keys id gs gs' tr :
  Step now keys id gs gs' tr → Players gs' = Players gs.
Proof. intros [| |proj gs1 tr1 _ _ HS]; try done. by apply Scan_Players in HS. Qed.

Lemma Step_Projectiles_other now keys id gs gs' tr id' :
  Step now keys id gs gs' tr → id' ≠ id →
  Projectiles gs' !! id' = Projectiles gs !! id'.
Proof.
  intros [| |proj gs1 tr1 _ _ HS] Hne; [done|by apply lookup_delete_ne|].
  destruct (Scan_Projectiles _ _ _ _ _ _ HS) as [->|[-> _]]; simpl.
  - by apply lookup_insert_ne.
  - rewrite lookup_delete_ne by done. by apply lookup_insert_ne.
Qed.

Lemma Step_heap now keys id gs gs' tr :
  Step now keys id gs gs' tr →
  ∀ l, heap gs' !! l = heap gs !! l
       ∨ (markedDead (heap gs) (heap gs') l
          ∧ ∃ k, EvHit id k ∈ tr ∧ Players gs !! k = Some l).
Proof.
  intros [| |proj gs1 tr1 _ _ HS] l; [by left..|].
  destruct (Scan_heap _ _ _ _ _ _ HS l) as [?|[? (k & Hk & ?)]]; [by left|].
  right. split; [done|]. exists k. split; [|done].
  by apply list_elem_of_further.
Qed.

Lemma Step_about now keys id gs gs' tr :
  Step now keys id gs gs' tr → Forall (λ e, about id e = true) tr.
Proof.
  intros [| |proj gs1 tr1 _ _ HS]; [constructor|..].
  - repeat constructor. simpl. by apply bool_decide_eq_true.
  - constructor; [simpl; by apply bool_decide_eq_true|].
    by eapply Scan_about.
Qed.

Lemma Step_Shape now keys id gs gs' tr :
  Step now keys id gs gs' tr → Shape id tr.
Proof.
  intros [| |proj gs1 tr1 _ _ HS]; [constructor..|].
  destruct HS; constructor.
Qed.

(** ** Physics tick: the loop over the projectiles *)

Lemma filter_all_true {A} (f : A → bool) (l : list A) :
  Forall (λ e, f e = true) l → List.filter f l = l.
Proof. induction 1 as [|e l He _ IH]; simpl; [done|]. by rewrite He, IH. Qed.

Lemma filter_all_false {A} (f : A → bool) (l : list A) :
  Forall (λ e, f e = false) l → List.filter f l = [].
Proof. induction 1 as [|e l He _ IH]; simpl; [done|]. by rewrite He. Qed.

Lemma about_other id id' e : about id e = true → id' ≠ id → about id' e = false.
Proof.
  destruct e; simpl; intros ->%bool_decide_eq_true Hne;
    by apply bool_decide_eq_false.
Qed.

Lemma Forall_about_other id id' tr :
  Forall (λ e, about id e = true) tr → id' ≠ id →
  Forall (λ e, about id' e = false) tr.
Proof.
  intros H Hne. apply (Forall_impl _ _ _ H). intros e He.
  by eapply about_other.
Qed.

Lemma evolves_refl gs : evolves gs gs.
Proof. split; [done|]. by left. Qed.

Lemma markedDead_trans (h1 h2 h3 : gmap loc Player.t) l :
  markedDead h1 h2 l → markedDead h2 h3 l → markedDead h1 h3 l.
Proof.
  intros (p & Hp & Hp2) (q & Hq & Hq3). exists p. split; [done|].
  rewrite Hq3. rewrite Hp2 in Hq. by injection Hq as <-.
Qed.

Lemma evolves_trans gs1 gs2 gs3 :
  evolves gs1 gs2 → evolves gs2 gs3 → evolves gs1 gs3.
Proof.
  intros [HP12 H12] [HP23 H23]. split; [congruence|]. intros l.
  destruct (H12 l) as [E12|M12], (H23 l) as [E23|M23].
  - left. congruence.
  - right. destruct M23 as (p & Hp & Hp'). exists p. by rewrite <- E12.
  - right. destruct M12 as (p & Hp & Hp'). exists p. by rewrite E23.
  - right. by eapply markedDead_trans.
Qed.

Lemma Step_evolves now keys id gs gs' tr :
  Step now keys id gs gs' tr → evolves gs gs'.
Proof.
  intros HS. split; [by eapply Step_Players|]. intros l.
  destruct (Step_heap _ _ _ _ _ _ HS l) as [?|[? _]]; [by left|by right].
Qed.

Lemma tick_cons now plOrder id rest gs :
  updateProjectiles_tick now plOrder (id :: rest) gs =
    let st := stepProjectile now (plOrder id) id gs in
    let tk := updateProjectiles_tick now plOrder rest st.1 in
    (tk.1, st.2 ++ tk.2).
Proof.
  simpl. destruct (stepProjectile _ _ _ _) as [gs1 tr1]. simpl.
  by destruct (updateProjectiles_tick _ _ _ _).
Qed.

Lemma tick_evolves now plOrder projOrder : ∀ gs,
  evolves gs (updateProjectiles_tick now plOrder projOrder gs).1.
Proof.
  induction projOrder as [|id rest IH]; intros gs; [apply evolves_refl|].
  rewrite tick_cons. simpl. eapply evolves_trans; [|apply IH].
  eapply Step_evolves, stepProjectile_Step.
Qed.

Lemma tick_absent now plOrder projOrder id : ∀ gs,
  id ∉ projOrder →
  Projectiles (updateProjectiles_tick now plOrder projOrder gs).1 !! id
    = Projectiles gs !! id
  ∧ Forall (λ e, about id e = false)
      (updateProjectiles_tick now plOrder projOrder gs).2.
Proof.
  induction projOrder as [|id0 rest IH]; intros gs Hnotin; [by split|].
  apply not_elem_of_cons in Hnotin as [Hne Hnotin].
  rewrite tick_cons. simpl.
  pose proof (stepProjectile_Step now (plOrder id0) id0 gs) as HS.
  destruct (IH (stepProjectile now (plOrder id0) id0 gs).1 Hnotin) as [-> Hab].
  split.
  - by eapply Step_Projectiles_other.
  - apply Forall_app. split; [|done].
    eapply Forall_about_other; [by eapply Step_about|done].
Qed.

(** The events of a tick about a projectile it visits are those of the one
    run of the loop body for that projectile. *)
Lemma tick_at now plOrder projOrder id : ∀ gs,
  NoDup projOrder → id ∈ projOrder →
  ∃ gs1 gs2,
    evolves gs gs1
    ∧ Projectiles gs1 !! id = Projectiles gs !! id
    ∧ Step now (plOrder id) id gs1 gs2
        (List.filter (about id)
           (updateProjectiles_tick now plOrder projOrder gs).2)
    ∧ Projectiles (updateProjectiles_tick now plOrder projOrder gs).1 !! id
        = Projectiles gs2 !! id.
Proof.
  induction projOrder as [|id0 rest IH]; intros gs Hnd Hin.
  { by apply elem_of_nil in Hin. }
  apply NoDup_cons in Hnd as [Hnotin Hnd].
  rewrite tick_cons. simpl.
  pose proof (stepProjectile_Step now (plOrder id0) id0 gs) as HS.
  rewrite List.filter_app.
  destruct (decide (id = id0)) as [->|Hne].
  - destruct (tick_absent now plOrder rest id0
                (stepProjectile now (plOrder id0) id0 gs).1 Hnotin) as [HP Hab].
    exists gs, (stepProjectile now (plOrder id0) id0 gs).1.
    rewrite (filter_all_true _ _ (Step_about _ _ _ _ _ _ HS)).
    rewrite (filter_all_false _ _ Hab), app_nil_r.
    split_and!; [apply evolves_refl|done|done|done].
  - apply elem_of_cons in Hin as [?|Hin]; [done|].
    destruct (IH (stepProjectile now (plOrder id0) id0 gs).1 Hnd Hin)
      as (gs1 & gs2 & Hev & HP1 & Hstep & HP2).
    exists gs1, gs2.
    rewrite (filter_all_false (about id) _
               (Forall_about_other _ _ _ (Step_about _ _ _ _ _ _ HS) Hne)).
    simpl. split_and!; try done.
    + eapply evolves_trans; [|done]. by eapply Step_evolves.
    + rewrite HP1. by eapply Step_Projectiles_other.
Qed.

Lemma tick_Shape now plOrder projOrder id gs :
  NoDup projOrder →
  Shape id (List.filter (about id)
              (updateProjectiles_tick now plOrder projOrder gs).2).
Proof.
  intros Hnd. destruct (decide (id ∈ projOrder)) as [Hin|Hnotin].
  - destruct (tick_at now plOrder projOrder id gs Hnd Hin)
      as (gs1 & gs2 & _ & _ & Hstep & _).
    by eapply Step_Shape.
  - destruct (tick_absent now plOrder projOrder id gs Hnotin) as [_ Hab].
    rewrite (filter_all_false _ _ Hab). constructor.
Qed.

(** ** Reading a trace *)

Lemma elem_of_Lfilter {A} (f : A → bool) (l : list A) (x : A) :
  x ∈ List.filter f l ↔ x ∈ l ∧ f x = true.
Proof. rewrite !list_elem_of_In. apply List.filter_In. Qed.

Lemma Lfilter_nil_Forall {A} (f : A → bool) (l : list A) :
  List.filter f l = [] → Forall (λ e, f e = false) l.
Proof.
  induction l as [|e l IH]; simpl; [constructor|].
  destruct (f e) eqn:E; [done|]. intros H. constructor; auto.
Qed.

Lemma Lfilter_sub {A} (f g : A → bool) (l : list A) :
  (∀ e, f e = true → g e = true) →
  List.filter f (List.filter g l) = List.filter f l.
Proof.
  intros Hfg. induction l as [|e l IH]; simpl; [done|].
  destruct (g e) eqn:G; simpl.
  - by rewrite IH.
  - destruct (f e) eqn:F; [|done]. apply Hfg in F. congruence.
Qed.

Lemma removes_about id e : removes id e = true → about id e = true.
Proof. by destruct e. Qed.

Lemma kills_about id e : kills id e = true → about id e = true.
Proof. by destruct e. Qed.

Lemma count_about (f : Event → bool) id tr :
  (∀ e, f e = true → about id e = true) →
  count f (List.filter (about id) tr) = count f tr.
Proof. intros H. unfold count. by rewrite Lfilter_sub. Qed.

Lemma count_app f tr1 tr2 : count f (tr1 ++ tr2) = count f tr1 + count f tr2.
Proof. unfold count. by rewrite List.filter_app, length_app. Qed.

Lemma count_tests f id (ks : list string) :
  (∀ k, f (EvTest id k) = false) → count f (EvTest id <$> ks) = 0.
Proof.
  intros H. unfold count. rewrite filter_all_false; [done|].
  apply Forall_fmap, Forall_true. intros k. apply H.
Qed.

Lemma not_in_tests e id (ks : list string) :
  (∀ k, e ≠ EvTest id k) → e ∉ EvTest id <$> ks.
Proof. intros H (k & -> & _)%list_elem_of_fmap. by eapply H. Qed.

Lemma last_is_unique {A} (x y : A) (l1 l2 l : list A) :
  l1 ++ x :: l2 = l ++ [y] → x ∉ l → l2 = [].
Proof.
  intros Heq Hnotin. destruct l2 as [|b l2 _] using rev_ind; [done|].
  change (l1 ++ x :: l2 ++ [b]) with (l1 ++ (x :: l2) ++ [b]) in Heq.
  rewrite app_assoc in Heq. apply app_inj_tail in Heq as [<- _].
  destruct Hnotin. rewrite elem_of_app. right. apply list_elem_of_here.
Qed.

(** What a shape says about removals, kills and what can follow a hit. *)
Lemma Shape_counts id s :
  Shape id s →
  count (removes id) s ≤ 1
  ∧ count (kills id) s ≤ count (removes id) s
  ∧ (EvExpire id ∈ s → s = [EvExpire id])
  ∧ (∀ k s1 s2, s = s1 ++ EvHit id k :: s2 → s2 = []).
Proof.
  assert (Hid : bool_decide (id = id) = true) by (by apply bool_decide_eq_true).
  intros [| |ks|ks k].
  - split_and!; [by compute; lia|done|by intros ?%elem_of_nil|].
    intros k [|] s2 [=].
  - unfold count. simpl. rewrite Hid. simpl.
    split_and!; [lia|lia|done|].
    intros k [|e [|]] s2 [=].
  - pose proof (count_tests (removes id) id ks (λ _, eq_refl)) as Hr.
    pose proof (count_tests (kills id) id ks (λ _, eq_refl)) as Hk.
    unfold count in *. simpl. rewrite Hr, Hk. split_and!; [lia|lia|..].
    + intros [?|H]%elem_of_cons; [done|]. by apply not_in_tests in H.
    + intros k s1 s2 Heq.
      assert (Hin : EvHit id k ∈ EvAdvance id :: (EvTest id <$> ks)).
      { rewrite Heq, elem_of_app. right. apply list_elem_of_here. }
      apply elem_of_cons in Hin as [?|H]; [done|].
      by apply not_in_tests in H.
  - pose proof (count_tests (removes id) id ks (λ _, eq_refl)) as Hr.
    pose proof (count_tests (kills id) id ks (λ _, eq_refl)) as Hk.
    unfold count in *. simpl. rewrite !List.filter_app, !length_app, Hr, Hk.
    simpl. rewrite Hid. simpl. split_and!; [lia|lia|..].
    + intros [?|[H|H]%elem_of_app]%elem_of_cons; [done|..].
      * by apply not_in_tests in H.
      * apply elem_of_cons in H as [?|H]; [done|].
        by apply list_elem_of_singleton in H.
    + intros k' s1 s2 Heq.
      apply (last_is_unique (EvHit id k') (EvHit id k) s1 s2
               (EvAdvance id :: (EvTest id <$> ks) ++ [EvTest id k])).
      * rewrite <- Heq. simpl. by rewrite <- app_assoc.
      * intros [?|[H|H]%elem_of_app]%elem_of_cons; [done|..].
        -- by apply not_in_tests in H.
        -- by apply list_elem_of_singleton in H.
Qed.

Lemma count_removes_expired id : count (removes id) [EvExpire id] = 1.
Proof. unfold count. simpl. by rewrite bool_decide_eq_true_2. Qed.

Lemma count_removes_flying id (ks : list string) :
  count (removes id) (EvAdvance id :: (EvTest id <$> ks)) = 0.
Proof.
  change (count (removes id) (EvTest id <$> ks) = 0). by apply count_tests.
Qed.

Lemma count_removes_hit id (ks : list string) k :
  count (removes id)
    (EvAdvance id :: (EvTest id <$> ks) ++ [EvTest id k; EvHit id k]) = 1.
Proof.
  change (count (removes id) ((EvTest id <$> ks) ++ [EvTest id k; EvHit id k])
          = 1).
  rewrite count_app, count_tests by done. unfold count. simpl.
  by rewrite bool_decide_eq_true_2.
Qed.

(** The loop body deletes the projectile exactly when it logs a removal. *)
Lemma Step_removed now keys id gs gs' tr proj :
  Step now keys id gs gs' tr →
  Projectiles gs !! id = Some proj →
  (Projectiles gs' !! id = None ↔ count (removes id) tr = 1).
Proof.
  intros [Hnone| |proj' gs1 tr1 _ _ HS] Hproj.
  - congruence.
  - simpl. rewrite lookup_delete_eq, count_removes_expired. done.
  - destruct HS.
    + simpl. rewrite lookup_insert_eq, count_removes_flying. done.
    + simpl. rewrite lookup_delete_eq, count_removes_hit. done.
Qed.

(** Whatever a tick changes in the heap is a player marked dead by a hit. *)
Lemma tick_hits now plOrder projOrder : ∀ gs l,
  heap (updateProjectiles_tick now plOrder projOrder gs).1 !! l = heap gs !! l
  ∨ (markedDead (heap gs)
       (heap (updateProjectiles_tick now plOrder projOrder gs).1) l
     ∧ ∃ id k, EvHit id k ∈ (updateProjectiles_tick now plOrder projOrder gs).2
               ∧ Players gs !! k = Some l).
Proof.
  induction projOrder as [|id0 rest IH]; intros gs l; [by left|].
  rewrite tick_cons. simpl.
  pose proof (stepProjectile_Step now (plOrder id0) id0 gs) as HS.
  pose proof (Step_Players _ _ _ _ _ _ HS) as HP.
  destruct (Step_heap _ _ _ _ _ _ HS l) as [E1|[M1 (k1 & Hk1 & Hl1)]];
    destruct (IH (stepProjectile now (plOrder id0) id0 gs).1 l)
      as [E2|[M2 (id2 & k2 & Hk2 & Hl2)]].
  - left. congruence.
  - right. split.
    + destruct M2 as (p & Hp & Hp'). exists p. by rewrite <- E1.
    + exists id2, k2. rewrite elem_of_app, <- HP. by split; [right|].
  - right. split.
    + destruct M1 as (p & Hp & Hp'). exists p. by rewrite E2.
    + exists id0, k1. rewrite elem_of_app. by split; [left|].
  - right. split; [by eapply markedDead_trans|].
    exists id0, k1. rewrite elem_of_app. by split; [left|].
Qed.

(** ** Physics tick: the claims *)

(** C6: in one tick a projectile is removed by at most one statement, and so
    marks at most one player dead.  When it expires it is neither advanced
    nor tested against any player; when it hits a player nothing more is done
    with it.  The store agrees with the log: the projectile is gone exactly
    when a removal was logged, and every player object the tick changed was
    marked dead by a logged hit. *)
Theorem C6_projectile_removed_by_one_cause
    (now : Time) (plOrder : string → list string) (projOrder : list string)
    (gs : GameState) :
  NoDup projOrder →
  let gs' := (updateProjectiles_tick now plOrder projOrder gs).1 in
  let tr := (updateProjectiles_tick now plOrder projOrder gs).2 in
  (∀ id,
     count (removes id) tr ≤ 1
     ∧ count (kills id) tr ≤ 1
     ∧ (EvExpire id ∈ tr →
          (EvAdvance id ∉ tr) ∧ (∀ k, (EvTest id k ∉ tr) ∧ (EvHit id k ∉ tr)))
     ∧ (∀ k tr1 tr2, tr = tr1 ++ EvHit id k :: tr2 →
          Forall (λ e, about id e = false) tr2)
     ∧ (∀ proj, Projectiles gs !! id = Some proj →
          (Projectiles gs' !! id = None ↔ count (removes id) tr = 1)))
  ∧ (∀ l, heap gs' !! l = heap gs !! l
          ∨ (markedDead (heap gs) (heap gs') l
             ∧ ∃ id k, EvHit id k ∈ tr ∧ Players gs !! k = Some l)).
Proof.
  intros Hnd gs' tr. split; [|apply tick_hits].
  intros id.
  pose proof (tick_Shape now plOrder projOrder id gs Hnd) as Hshape.
  fold tr in Hshape.
  destruct (Shape_counts _ _ Hshape) as (Hrm & Hkl & Hexp & Hhit).
  rewrite (count_about _ _ _ (removes_about id)) in Hrm, Hkl.
  rewrite (count_about _ _ _ (kills_about id)) in Hkl.
  assert (Hid : bool_decide (id = id) = true) by (by apply bool_decide_eq_true).
  split_and!; [done|lia|..].
  - intros Hin.
    assert (Honly : List.filter (about id) tr = [EvExpire id]).
    { apply Hexp, elem_of_Lfilter. by split. }
    assert (Hno : ∀ e, about id e = true → e ∈ tr → e = EvExpire id).
    { intros e He Hine.
      assert (H : e ∈ List.filter (about id) tr) by (by apply elem_of_Lfilter).
      rewrite Honly in H. by apply list_elem_of_singleton in H. }
    split; [|intros k; split]; intros H; by apply Hno in H.
  - intros k tr1 tr2 Heq. apply Lfilter_nil_Forall.
    apply (Hhit k (List.filter (about id) tr1)).
    rewrite Heq, List.filter_app. simpl. by rewrite Hid.
  - intros proj Hproj.
    rewrite <- (count_about _ _ _ (removes_about id)).
    destruct (decide (id ∈ projOrder)) as [Hin|Hnotin].
    + destruct (tick_at now plOrder projOrder id gs Hnd Hin)
        as (gs1 & gs2 & _ & HP1 & Hstep & HP2).
      subst gs'. rewrite HP2. eapply Step_removed; [done|]. by rewrite HP1.
    + destruct (tick_absent now plOrder projOrder id gs Hnotin) as [HP Hab].
      subst gs'. rewrite HP, Hproj. fold tr in Hab.
      rewrite (filter_all_false _ _ Hab). done.
Qed.

Lemma is_range_elem {A} (m : gmap string A) keys k x :
  is_range m keys → m !! k = Some x → k ∈ keys.
Proof. intros [_ H] Hk. apply H. by exists x. Qed.

(** C3, as the code has it: a tick at time [now] removes every projectile
    whose expiry is strictly before [now], and does nothing else with it (it
    is neither advanced nor tested).  A projectile with [now <= expiry], so
    also one whose expiry is [now] exactly, is not removed for its age: it is
    advanced, and is still in the store after the tick unless it hit a
    player. *)
Theorem C3_projectiles_past_expiry_are_removed
    (now : Time) (plOrder : string → list string) (projOrder : list string)
    (gs : GameState) (id : string) (proj : Projectile.t) :
  is_range (Projectiles gs) projOrder →
  Projectiles gs !! id = Some proj →
  let gs' := (updateProjectiles_tick now plOrder projOrder gs).1 in
  let tr := (updateProjectiles_tick now plOrder projOrder gs).2 in
  ((Projectile.Expiry proj < now)%Z →
     Projectiles gs' !! id = None
     ∧ List.filter (about id) tr = [EvExpire id])
  ∧ ((now ≤ Projectile.Expiry proj)%Z →
       (EvExpire id ∉ tr)
       ∧ EvAdvance id ∈ tr
       ∧ (Projectiles gs' !! id = Some (Projectile.advance proj)
          ∨ (Projectiles gs' !! id = None ∧ ∃ k, EvHit id k ∈ tr))).
Proof.
  intros Hrange Hproj gs' tr.
  pose proof (is_range_elem _ _ _ _ Hrange Hproj) as Hin.
  destruct Hrange as [Hnd _].
  destruct (tick_at now plOrder projOrder id gs Hnd Hin)
    as (gs1 & gs2 & _ & HP1 & Hstep & HP2).
  fold tr in Hstep. fold gs' in HP2. rewrite Hproj in HP1.
  assert (Hab : ∀ e, e ∈ List.filter (about id) tr → e ∈ tr).
  { intros e He. by apply elem_of_Lfilter in He as [? _]. }
  assert (Hback : ∀ e, about id e = true → e ∈ tr →
                       e ∈ List.filter (about id) tr).
  { intros e He Hine. by apply elem_of_Lfilter. }
  assert (Hid : ∀ e, (∃ k, e = EvExpire id ∨ e = EvHit id k) →
                     about id e = true).
  { intros e [k [->| ->]]; simpl; by apply bool_decide_eq_true. }
  rewrite HP2.
  remember (List.filter (about id) tr) as s eqn:Hs.
  destruct Hstep as [Hnone|p Hp Hlt|p gs3 tr3 Hp Hle HS].
  - congruence.
  - assert (p = proj) as -> by congruence.
    split; [|lia]. intros _. split; [apply lookup_delete_eq|done].
  - assert (p = proj) as -> by congruence.
    split; [lia|]. intros _. split_and!.
    + intros Hexp. apply Hback in Hexp; [|apply Hid; by exists id; left].
      apply elem_of_cons in Hexp as [?|Hexp]; [done|].
      destruct HS as [ks|ks k].
      * by apply not_in_tests in Hexp.
      * apply elem_of_app in Hexp as [Ht|Ht]; [by apply not_in_tests in Ht|].
        apply elem_of_cons in Ht as [?|Ht]; [done|].
        by apply list_elem_of_singleton in Ht.
    + apply Hab, list_elem_of_here.
    + destruct HS as [ks|ks k l player]; simpl.
      * left. apply lookup_insert_eq.
      * right. split; [apply lookup_delete_eq|]. exists k.
        apply Hab, list_elem_of_further. rewrite elem_of_app. right.
        apply list_elem_of_further, list_elem_of_here.
Qed.

(** C3, as the claim states it, fails on the boundary: a projectile whose
    expiry is the very time of the tick is not removed; it is advanced and
    stays in the store. *)
Lemma C3_projectile_at_its_expiry_is_kept :
  Projectiles range_only !! "p" = Some shot
  ∧ Projectile.Expiry shot = 5000000000%Z
  ∧ Projectiles
      (updateProjectiles_tick 5000000000%Z (λ _, []) ["p"] range_only).1 !! "p"
    = Some (Projectile.advance shot)
  ∧ (updateProjectiles_tick 5000000000%Z (λ _, []) ["p"] range_only).2
    = [EvAdvance "p"].
Proof. split_and!; reflexivity. Qed.

Lemma Scan_tested id proj keys gs gs' tr k :
  Scan id proj keys gs gs' tr →
  EvTest id k ∈ tr ∨ EvHit id k ∈ tr →
  candidate gs proj k.
Proof.
  intros [ks Hks _|ks k0 l player Hks _ Hl Hp Hne _] Hin.
  - destruct Hin as [Hin|Hin]; [|by apply not_in_tests in Hin].
    apply list_elem_of_fmap in Hin as (k' & [= ->] & Hin).
    by eapply Forall_forall in Hks.
  - assert (Hk0 : candidate gs proj k0).
    { exists player. split; [|done]. unfold playerAt. rewrite Hl. simpl.
      by rewrite Hp. }
    destruct Hin as [Hin|Hin]; apply elem_of_app in Hin as [Hin|Hin].
    + apply list_elem_of_fmap in Hin as (k' & [= ->] & Hin).
      by eapply Forall_forall in Hks.
    + apply elem_of_cons in Hin as [[= ->]|Hin]; [done|].
      by apply list_elem_of_singleton in Hin.
    + by apply not_in_tests in Hin.
    + apply elem_of_cons in Hin as [?|Hin]; [done|].
      by apply list_elem_of_singleton in Hin as [= ->].
Qed.

Lemma evolves_playerAt gs gs1 k player1 :
  evolves gs gs1 → playerAt gs1 k = Some player1 →
  ∃ player, playerAt gs k = Some player
            ∧ Player.ID player1 = Player.ID player.
Proof.
  intros [HP Hheap]. unfold playerAt. rewrite HP.
  destruct (Players gs !! k) as [l|]; [simpl|done].
  destruct (Hheap l) as [->|(p & -> & ->)].
  - intros ->. by eexists.
  - intros [= <-]. by exists p.
Qed.

(** The loop body leaves the player objects of the owner as they are. *)
Lemma Step_owner now keys id gs gs' tr proj l player :
  Step now keys id gs gs' tr →
  Projectiles gs !! id = Some proj →
  heap gs !! l = Some player →
  Player.ID player = Projectile.Owner proj →
  heap gs' !! l = Some player.
Proof.
  intros [| |p gs1 tr1 Hp _ HS] Hproj Hl Hown; try done.
  assert (p = proj) as -> by congruence.
  destruct HS as [|ks k l0 p0 _ _ _ Hp0 Hne _]; [done|].
  simpl in *. rewrite lookup_insert_ne; [done|]. intros ->. congruence.
Qed.

(** C8: a projectile is never tested against, and never hits, a player whose
    id is the id of its owner, wherever the two are; the loop body for a
    projectile leaves every player object of its owner untouched. *)
Theorem C8_owner_is_never_hit
    (now : Time) (plOrder : string → list string) (projOrder : list string)
    (gs : GameState) :
  NoDup projOrder →
  let tr := (updateProjectiles_tick now plOrder projOrder gs).2 in
  (∀ id k, EvTest id k ∈ tr ∨ EvHit id k ∈ tr →
     ∃ proj player,
       Projectiles gs !! id = Some proj
       ∧ playerAt gs k = Some player
       ∧ Player.ID player ≠ Projectile.Owner proj)
  ∧ (∀ keys id st proj l player,
       Projectiles st !! id = Some proj →
       heap st !! l = Some player →
       Player.ID player = Projectile.Owner proj →
       heap (stepProjectile now keys id st).1 !! l = Some player
       ∧ ∀ k, playerAt st k = Some player →
              (EvTest id k ∉ (stepProjectile now keys id st).2)
              ∧ (EvHit id k ∉ (stepProjectile now keys id st).2)).
Proof.
  intros Hnd tr. split.
  - intros id k Hin.
    assert (Hab : EvTest id k ∈ List.filter (about id) tr
                  ∨ EvHit id k ∈ List.filter (about id) tr).
    { destruct Hin; [left|right]; apply elem_of_Lfilter;
        (split; [done|]); simpl; by apply bool_decide_eq_true. }
    destruct (decide (id ∈ projOrder)) as [Hid|Hnotin].
    2:{ destruct (tick_absent now plOrder projOrder id gs Hnotin) as [_ Hno].
        fold tr in Hno. rewrite (filter_all_false _ _ Hno) in Hab.
        destruct Hab as [H|H]; by apply elem_of_nil in H. }
    destruct (tick_at now plOrder projOrder id gs Hnd Hid)
      as (gs1 & gs2 & Hev & HP1 & Hstep & _).
    fold tr in Hstep. remember (List.filter (about id) tr) as s eqn:Hs.
    destruct Hstep as [Hnone|p Hp Hlt|p gs3 tr3 Hp Hle HS].
    + destruct Hab as [H|H]; by apply elem_of_nil in H.
    + destruct Hab as [H|H]; by apply list_elem_of_singleton in H.
    + assert (Hin3 : EvTest id k ∈ tr3 ∨ EvHit id k ∈ tr3).
      { destruct Hab as [H|H]; apply elem_of_cons in H as [?|H]; try done;
          [by left|by right]. }
      destruct (Scan_tested _ _ _ _ _ _ k HS Hin3) as (player1 & Hat1 & Hne1).
      destruct (evolves_playerAt gs gs1 k player1 Hev Hat1)
        as (player & Hat & HID).
      exists p, player. split_and!; [congruence|done|].
      by rewrite <- HID.
  - intros keys id st proj l player Hproj Hl Hown.
    pose proof (stepProjectile_Step now keys id st) as HS.
    split; [by eapply Step_owner|].
    intros k Hat.
    assert (Hno : ¬ (EvTest id k ∈ (stepProjectile now keys id st).2
                     ∨ EvHit id k ∈ (stepProjectile now keys id st).2)).
    { intros Hin.
      destruct HS as [Hnone|p Hp Hlt|p gs3 tr3 Hp Hle HS].
      - destruct Hin as [H|H]; by apply elem_of_nil in H.
      - destruct Hin as [H|H]; by apply list_elem_of_singleton in H.
      - assert (p = proj) as -> by congruence.
        assert (Hin3 : EvTest id k ∈ tr3 ∨ EvHit id k ∈ tr3).
        { destruct Hin as [H|H]; apply elem_of_cons in H as [?|H]; try done;
            [by left|by right]. }
        destruct (Scan_tested _ _ _ _ _ _ k HS Hin3) as (p1 & Hat1 & Hne1).
        change (playerAt st k = Some p1) in Hat1.
        rewrite Hat in Hat1. injection Hat1 as <-. done. }
    split; intros H; apply Hno; [by left|by right].
Qed.

Lemma playerAt_Some gs k player :
  playerAt gs k = Some player ↔
  ∃ l, Players gs !! k = Some l ∧ heap gs !! l = Some player.
Proof.
  unfold playerAt. destruct (Players gs !! k) as [l|]; simpl.
  - split; [by exists l|]. by intros (l' & [= <-] & ?).
  - split; [done|]. by intros (l' & ? & _).
Qed.

Lemma overlap_setDead b player proj :
  overlap (Player.setDead b player) proj = overlap player proj.
Proof. done. Qed.

Lemma setDead_false_inj_overlap p1 p2 proj :
  Player.setDead false p1 = Player.setDead false p2 →
  Player.ID p1 = Player.ID p2 ∧ overlap p1 proj = overlap p2 proj.
Proof.
  intros H. split.
  - by apply (f_equal Player.ID) in H.
  - by rewrite <- (overlap_setDead false p1), H, overlap_setDead.
Qed.

(** The loop over the players never reads a [Dead] flag. *)
Lemma scanPlayers_sameButDead id proj keys gs1 gs2 :
  sameButDead gs1 gs2 →
  (scanPlayers id proj keys gs1).2 = (scanPlayers id proj keys gs2).2.
Proof.
  intros (HP & _ & Hheap). induction keys as [|k keys IH]; simpl; [done|].
  rewrite HP. destruct (Players gs2 !! k) as [l|]; [|done].
  specialize (Hheap l).
  destruct (heap gs1 !! l) as [p1|], (heap gs2 !! l) as [p2|]; try done.
  assert (Hp : Player.setDead false p1 = Player.setDead false p2)
    by (simpl in Hheap; congruence).
  destruct (setDead_false_inj_overlap p1 p2 proj Hp) as [-> ->].
  destruct (decide (Player.ID p2 = Projectile.Owner proj)); [done|].
  destruct (overlap p2 proj); [done|].
  destruct (scanPlayers id proj keys gs1), (scanPlayers id proj keys gs2).
  simpl in *. by rewrite IH.
Qed.

Lemma stepProjectile_sameButDead now keys id gs1 gs2 :
  sameButDead gs1 gs2 →
  (stepProjectile now keys id gs1).2 = (stepProjectile now keys id gs2).2.
Proof.
  intros Hsame. pose proof Hsame as (HP & HQ & Hheap).
  unfold stepProjectile. rewrite HQ.
  destruct (Projectiles gs2 !! id) as [proj|]; [|done].
  destruct (Time_After now (Projectile.Expiry proj)); [done|].
  pose proof (scanPlayers_sameButDead id (Projectile.advance proj) keys
                (moveTo id (Projectile.advance proj) gs1)
                (moveTo id (Projectile.advance proj) gs2)) as Hscan.
  destruct (scanPlayers _ _ _ (moveTo _ _ gs1)),
           (scanPlayers _ _ _ (moveTo _ _ gs2)).
  simpl in *. rewrite Hscan; [done|].
  split_and!; simpl; [done|by rewrite HQ|done].
Qed.

(** C2, as the code has it: the loop over the players does not look at the
    [Dead] flag.  Every player other than the owner is tested, dead or alive:
    the events of the loop body are the same whatever the flags are; a dead
    player that is visited first and overlaps the advanced projectile consumes
    it and stays dead; and whenever some player other than the owner
    overlaps, the projectile is consumed. *)
Theorem C2_dead_players_are_hit_targets
    (now : Time) (keys : list string) (id : string) (gs : GameState)
    (proj : Projectile.t) :
  Projectiles gs !! id = Some proj →
  (now ≤ Projectile.Expiry proj)%Z →
  let gs' := (stepProjectile now keys id gs).1 in
  let tr := (stepProjectile now keys id gs).2 in
  (∀ gs2, sameButDead gs gs2 → (stepProjectile now keys id gs2).2 = tr)
  ∧ (∀ k rest player,
       keys = k :: rest →
       playerAt gs k = Some player →
       Player.Dead player = true →
       Player.ID player ≠ Projectile.Owner proj →
       overlap player (Projectile.advance proj) = true →
       tr = [EvAdvance id; EvTest id k; EvHit id k]
       ∧ Projectiles gs' !! id = None
       ∧ playerAt gs' k = Some player)
  ∧ (∀ k player,
       k ∈ keys →
       playerAt gs k = Some player →
       Player.ID player ≠ Projectile.Owner proj →
       overlap player (Projectile.advance proj) = true →
       Projectiles gs' !! id = None ∧ ∃ k', EvHit id k' ∈ tr).
Proof.
  intros Hproj Hle gs' tr. split_and!.
  - intros gs2 Hsame. symmetry. by apply stepProjectile_sameButDead.
  - intros k rest player -> Hat Hdead Hne Hov.
    apply playerAt_Some in Hat as (l & Hl & Hp).
    subst gs' tr. unfold stepProjectile, Time_After. rewrite Hproj.
    destruct (Z.ltb_spec (Projectile.Expiry proj) now); [lia|].
    simpl. rewrite Hl, Hp. rewrite decide_False by done. rewrite Hov. simpl.
    split_and!; [done|apply lookup_delete_eq|].
    unfold playerAt. simpl. rewrite Hl. simpl. rewrite lookup_insert_eq.
    destruct player; simpl in *. by subst.
  - intros k player Hin Hat Hne Hov.
    pose proof (stepProjectile_Step now keys id gs) as HS.
    fold gs' tr in HS.
    destruct HS as [Hnone|p Hp Hlt|p gs3 tr3 Hp Hle' HS]; [congruence|..].
    + assert (p = proj) as -> by congruence. lia.
    + assert (p = proj) as -> by congruence.
      destruct HS as [ks Hks Hmiss|ks k0 l p0].
      * rewrite (Hmiss k player Hin Hat Hne) in Hov. done.
      * simpl. split; [apply lookup_delete_eq|]. exists k0.
        apply list_elem_of_further. rewrite elem_of_app. right.
        apply list_elem_of_further, list_elem_of_here.
Qed.

(** C2, as the claim states it, fails: [bob] is dead, and the projectile of
    [alice] that reaches him is tested against him, hits him and is removed
    from the store. *)
Lemma C2_dead_player_consumes_projectile :
  (Player.Dead <$> playerAt graveyard "b") = Some true
  ∧ (updateProjectiles_tick 16000000%Z (λ _, ["a"; "b"]) ["p"] graveyard).2
    = [EvAdvance "p"; EvTest "p" "b"; EvHit "p" "b"]
  ∧ Projectiles
      (updateProjectiles_tick 16000000%Z (λ _, ["a"; "b"]) ["p"] graveyard).1
      !! "p" = None.
Proof. split_and!; reflexivity. Qed.

(** ** Broadcast tick: counting the survivors *)

Lemma aliveAt_living gs k : aliveAt gs k = true ↔ living gs k.
Proof.
  unfold aliveAt, living. destruct (playerAt gs k) as [player|].
  - rewrite negb_true_iff. split; [by exists player|].
    by intros (p & [= <-] & ?).
  - split; [done|]. by intros (p & ? & _).
Qed.

Lemma countAlive_from keys gs : ∀ n : Z,
  foldl (λ stillAlive k,
           match playerAt gs k with
           | Some player =>
               if negb (Player.Dead player) then (stillAlive + 1)%Z
               else stillAlive
           | None => stillAlive
           end) n keys
  = (n + Z.of_nat (length (List.filter (aliveAt gs) keys)))%Z.
Proof.
  induction keys as [|k keys IH]; intros n; simpl; [lia|].
  rewrite IH. unfold aliveAt at 2.
  destruct (playerAt gs k) as [player|]; [|done].
  destruct (negb (Player.Dead player)); simpl; lia.
Qed.

Lemma countAlive_length keys gs :
  countAlive keys gs = Z.of_nat (length (List.filter (aliveAt gs) keys)).
Proof. unfold countAlive. by rewrite countAlive_from. Qed.

Lemma one_in_filter {A} (f : A → bool) (l : list A) :
  NoDup l →
  length (List.filter f l) = 1 ↔
  ∃ x, x ∈ l ∧ f x = true ∧ ∀ y, y ∈ l → f y = true → y = x.
Proof.
  induction 1 as [|a l Hnotin Hnd IH]; simpl.
  { split; [done|]. by intros (x & ?%elem_of_nil & _). }
  destruct (f a) eqn:Hfa; simpl.
  - split.
    + intros Hlen. exists a. split_and!; [apply list_elem_of_here|done|].
      intros y [->|Hy]%elem_of_cons Hfy; [done|].
      assert (Hin : y ∈ List.filter f l) by (by apply elem_of_Lfilter).
      destruct (List.filter f l); [by apply elem_of_nil in Hin|done].
    + intros (x & _ & _ & Huniq). f_equal.
      rewrite filter_all_false; [done|]. apply Forall_forall. intros y Hy.
      destruct (f y) eqn:Hfy; [|done].
      assert (a = x) as <- by (by apply Huniq; [apply list_elem_of_here|]).
      assert (y = a) as -> by (by apply Huniq; [apply list_elem_of_further|]).
      done.
  - rewrite IH. split.
    + intros (x & Hx & Hfx & Huniq). exists x.
      split_and!; [by apply list_elem_of_further|done|].
      intros y [->|Hy]%elem_of_cons Hfy; [congruence|by apply Huniq].
    + intros (x & [->|Hx]%elem_of_cons & Hfx & Huniq); [congruence|].
      exists x. split_and!; [done|done|].
      intros y Hy. apply Huniq. by apply list_elem_of_further.
Qed.

Lemma living_in_range gs keys k :
  is_range (Players gs) keys → living gs k → k ∈ keys.
Proof.
  intros [_ Hkeys] (player & (l & Hl & _)%playerAt_Some & _).
  apply Hkeys. by exists l.
Qed.

(** The counter of lines 159-164 is 1 exactly when one player is alive. *)
Lemma countAlive_one keys gs :
  is_range (Players gs) keys →
  countAlive keys gs = 1%Z ↔ oneSurvivor gs.
Proof.
  intros Hrange. rewrite countAlive_length.
  assert (length (List.filter (aliveAt gs) keys) = 1
          ↔ oneSurvivor gs) as <-; [|lia].
  rewrite (one_in_filter _ _ (proj1 Hrange)). unfold oneSurvivor. split.
  - intros (k & Hk & Hal & Huniq). exists k.
    split; [by apply aliveAt_living|].
    intros k' Hk'. apply Huniq; [by eapply living_in_range|].
    by apply aliveAt_living.
  - intros (k & Hal & Huniq). exists k.
    split_and!; [by eapply living_in_range|by apply aliveAt_living|].
    intros k' _ Hk'. by apply Huniq, aliveAt_living.
Qed.

Lemma size_one_unique {A} (m : gmap string A) k k' :
  size m = 1 → is_Some (m !! k) → is_Some (m !! k') → k' = k.
Proof.
  intros Hsize [x Hx] [x' Hx'].
  destruct (decide (k' = k)) as [|Hne]; [done|exfalso].
  pose proof (map_size_delete_Some k m (ltac:(by exists x))) as Hdel.
  assert (Hin : delete k m !! k' = Some x') by (by rewrite lookup_delete_ne).
  apply (map_size_ne_0_lookup_2 (delete k m) k'); [by exists x'|lia].
Qed.

(** C1, as the code has it: a broadcast tick takes the reset branch exactly
    when one player of the store is alive, however many players the store
    holds.  With a single player in the store the reset therefore triggers on
    every tick on which that player is alive. *)
Theorem C1_reset_iff_one_survivor
    (writeFails : N → bool) (countOrder sendOrder resetOrder : list string)
    (gs : GameState) :
  is_range (Players gs) countOrder →
  let tick :=
    broadcastState_tick writeFails countOrder sendOrder resetOrder gs in
  (reset tick = true ↔ oneSurvivor gs)
  ∧ (size (Players gs) = 1 → (reset tick = true ↔ ∃ k, living gs k))
  ∧ after tick =
      (if reset tick
       then resetPlayers resetOrder (sendAll writeFails sendOrder gs)
       else sendAll writeFails sendOrder gs).
Proof.
  intros Hrange tick.
  assert (Hreset : reset tick = true ↔ oneSurvivor gs).
  { rewrite <- (countAlive_one countOrder gs Hrange).
    subst tick. unfold broadcastState_tick.
    destruct (Z.eqb_spec (countAlive countOrder gs) 1) as [->|Hne]; simpl.
    - done.
    - split; [done|]. intros ?. by destruct Hne. }
  split_and!; [done| |].
  - intros Hsize. rewrite Hreset. unfold oneSurvivor. split.
    + intros (k & Hk & _). by exists k.
    + intros (k & Hk). exists k. split; [done|]. intros k' Hk'.
      destruct Hk as (p & (l & Hl & _)%playerAt_Some & _).
      destruct Hk' as (p' & (l' & Hl' & _)%playerAt_Some & _).
      by eapply size_one_unique.
  - subst tick. unfold broadcastState_tick.
    by destruct (countAlive countOrder gs =? 1)%Z.
Qed.

(** C1, as the claim states it, fails: with [alice] alone in the store the
    reset branch is taken, and it leaves the store as it was, so that the
    next tick takes it again. *)
Lemma C1_lone_player_triggers_reset :
  size (Players lonely) = 1
  ∧ reset (broadcastState_tick (λ _, false) ["a"] ["a"] ["a"] lonely) = true
  ∧ after (broadcastState_tick (λ _, false) ["a"] ["a"] ["a"] lonely) = lonely.
Proof. split_and!; reflexivity. Qed.

(** ** Broadcast tick: the reset *)

Lemma respawn_idem player : respawn (respawn player) = respawn player.
Proof. done. Qed.

Lemma resetPlayers_snoc keys k gs :
  resetPlayers (keys ++ [k]) gs =
    let st := resetPlayers keys gs in
    match Players st !! k with
    | Some l =>
        {| heap := alter respawn l (heap st); Players := Players st;
           Projectiles := Projectiles st |}
    | None => st
    end.
Proof. unfold resetPlayers. by rewrite foldl_snoc. Qed.

(** The loop of lines 180-184 touches the heap only: it respawns the objects
    of the keys it visits. *)
Lemma resetPlayers_inv keys : ∀ gs,
  Players (resetPlayers keys gs) = Players gs
  ∧ Projectiles (resetPlayers keys gs) = Projectiles gs
  ∧ ∀ l,
      (heap (resetPlayers keys gs) !! l = heap gs !! l
       ∨ heap (resetPlayers keys gs) !! l = respawn <$> heap gs !! l)
      ∧ ((∃ k, k ∈ keys ∧ Players gs !! k = Some l) →
           heap (resetPlayers keys gs) !! l = respawn <$> heap gs !! l)
      ∧ ((∀ k, k ∈ keys → Players gs !! k ≠ Some l) →
           heap (resetPlayers keys gs) !! l = heap gs !! l).
Proof.
  induction keys as [|k keys IH] using rev_ind; intros gs.
  { split_and!; try done. intros l. split_and!; [by left| |done].
    by intros (k & ?%elem_of_nil & _). }
  destruct (IH gs) as (HP & HQ & Hheap).
  rewrite resetPlayers_snoc. simpl. rewrite HP.
  destruct (Players gs !! k) as [l0|] eqn:Hk; simpl.
  - split_and!; [done|done|]. intros l. destruct (Hheap l) as (Hdisj & Hin & Hout).
    destruct (decide (l = l0)) as [->|Hne].
    + rewrite lookup_alter_eq.
      assert (Hre : respawn <$> heap (resetPlayers keys gs) !! l0
                    = respawn <$> heap gs !! l0).
      { destruct Hdisj as [->| ->]; [done|].
        by destruct (heap gs !! l0). }
      split_and!; [by right|done|].
      intros Hno. destruct (Hno k); [|done].
      rewrite elem_of_app. right. apply list_elem_of_here.
    + rewrite lookup_alter_ne by done. split_and!; [done|..].
      * intros (k' & [Hk'|Hk']%elem_of_app & Hl); [by apply Hin; exists k'|].
        apply list_elem_of_singleton in Hk' as ->. congruence.
      * intros Hno. apply Hout. intros k' Hk'. apply Hno.
        rewrite elem_of_app. by left.
  - split_and!; [done|done|]. intros l. destruct (Hheap l) as (Hdisj & Hin & Hout).
    split_and!; [done|..].
    + intros (k' & [Hk'|Hk']%elem_of_app & Hl); [by apply Hin; exists k'|].
      apply list_elem_of_singleton in Hk' as ->. congruence.
    + intros Hno. apply Hout. intros k' Hk'. apply Hno.
      rewrite elem_of_app. by left.
Qed.

(** C9: the reset mutation makes every player of the store alive and puts it
    on the spawn point (50,50), and changes nothing else: the ids and
    connections of the players, the set of registered players, the player
    objects that are not in the store and the projectiles stay as they
    were. *)
Theorem C9_reset_only_respawns_players
    (keys : list string) (gs : GameState) :
  is_range (Players gs) keys →
  let gs' := resetPlayers keys gs in
  Players gs' = Players gs
  ∧ Projectiles gs' = Projectiles gs
  ∧ dom (heap gs') = dom (heap gs)
  ∧ (∀ k l player,
       Players gs !! k = Some l → heap gs !! l = Some player →
       heap gs' !! l =
         Some {| Player.ID := Player.ID player;
                 Player.X := 50%float; Player.Y := 50%float;
                 Player.Dead := false;
                 Player.Conn := Player.Conn player |})
  ∧ (∀ l, (∀ k, Players gs !! k ≠ Some l) → heap gs' !! l = heap gs !! l).
Proof.
  intros Hrange gs'. subst gs'.
  destruct (resetPlayers_inv keys gs) as (HP & HQ & Hheap).
  split_and!; [done|done|..].
  - apply set_eq. intros l. rewrite !elem_of_dom.
    destruct (Hheap l) as ([->| ->] & _); [done|].
    by rewrite fmap_is_Some.
  - intros k l player Hl Hp. destruct (Hheap l) as (_ & Hin & _).
    rewrite Hin, Hp; [done|].
    exists k. split; [|done]. by eapply is_range_elem.
  - intros l Hno. destruct (Hheap l) as (_ & _ & Hout).
    apply Hout. intros k _. apply Hno.
Qed.

(** ** The theorems at work on the example worlds *)

(** Every map has an order in which it can be ranged over. *)
Lemma is_range_dom {A} (m : gmap string A) : is_range m (elements (dom m)).
Proof.
  split; [apply NoDup_elements|]. intros k.
  by rewrite elem_of_elements, elem_of_dom.
Qed.

Lemma is_range_check {A} (m : gmap string A) (keys : list string) :
  NoDup keys → list_to_set keys = dom m → is_range m keys.
Proof.
  intros Hnd Hdom. split; [done|]. intros k.
  by rewrite <- elem_of_dom, <- Hdom, elem_of_list_to_set.
Qed.

(** Settles a closed decidable goal by evaluating its decision. *)
Ltac by_decide :=
  match goal with
  | |- ?P => apply (bool_decide_unpack P); vm_compute; exact I
  end.

Ltac range_check := apply is_range_check; [by_decide|reflexivity].

Lemma C1_witness :
  is_range (Players graveyard) ["a"; "b"]
  ∧ reset (broadcastState_tick (λ _, false) ["a"; "b"] ["a"; "b"] ["a"; "b"]
             graveyard) = true
  ∧ oneSurvivor graveyard.
Proof.
  assert (H : is_range (Players graveyard) ["a"; "b"]).
  { range_check. }
  pose proof (C1_reset_iff_one_survivor (λ _, false) ["a"; "b"] ["a"; "b"]
                ["a"; "b"] graveyard H) as (Hiff & _).
  split; [exact H|]. split; [reflexivity|]. apply Hiff. reflexivity.
Defined.

Lemma C2_witness :
  Projectiles graveyard !! "p" = Some shot
  ∧ (16000000 ≤ Projectile.Expiry shot)%Z
  ∧ (stepProjectile 16000000%Z ["b"; "a"] "p" graveyard).2
    = [EvAdvance "p"; EvTest "p" "b"; EvHit "p" "b"]
  ∧ Projectiles (stepProjectile 16000000%Z ["b"; "a"] "p" graveyard).1 !! "p"
    = None
  ∧ playerAt (stepProjectile 16000000%Z ["b"; "a"] "p" graveyard).1 "b"
    = Some (Player.setDead true bob).
Proof.
  assert (H1 : Projectiles graveyard !! "p" = Some shot) by reflexivity.
  assert (H2 : (16000000 ≤ Projectile.Expiry shot)%Z) by (vm_compute; discriminate).
  pose proof (C2_dead_players_are_hit_targets 16000000%Z ["b"; "a"] "p"
                graveyard shot H1 H2) as (_ & Hdead & _).
  split; [exact H1|]. split; [exact H2|].
  apply (Hdead "b" ["a"] (Player.setDead true bob)); try reflexivity.
  vm_compute. discriminate.
Defined.

Lemma C3_witness :
  is_range (Projectiles range_only) ["p"]
  ∧ Projectiles range_only !! "p" = Some shot
  ∧ Projectiles
      (updateProjectiles_tick 5000000001%Z (λ _, []) ["p"] range_only).1 !! "p"
    = None
  ∧ List.filter (about "p")
      (updateProjectiles_tick 5000000001%Z (λ _, []) ["p"] range_only).2
    = [EvExpire "p"].
Proof.
  assert (H1 : is_range (Projectiles range_only) ["p"]) by range_check.
  assert (H2 : Projectiles range_only !! "p" = Some shot) by reflexivity.
  pose proof (C3_projectiles_past_expiry_are_removed 5000000001%Z (λ _, [])
                ["p"] range_only "p" shot H1 H2) as (Hpast & _).
  split; [exact H1|]. split; [exact H2|].
  apply Hpast. reflexivity.
Defined.

Lemma C4_witness :
  heap lonely !! 1%positive = Some alice
  ∧ ∃ p', heap (handleConn_loop 1%positive session_inputs lonely) !! 1%positive
          = Some p'
          ∧ position p' = (30%float, 0%float).
Proof.
  assert (H : heap lonely !! 1%positive = Some alice) by reflexivity.
  split; [exact H|].
  exact (proj1 (C4_position_is_last_nonzero_move 1%positive alice lonely H)
           session_inputs).
Defined.

Lemma C5_witness :
  heap lonely !! 1%positive = Some alice
  ∧ Projectiles lonely !! "q" = None
  ∧ ∃ p', heap (onMessage 1%positive (message 10 20 0 1) "q" 700%Z lonely)
            !! 1%positive = Some p'
          ∧ position p' = (10%float, 20%float)
          ∧ size (Projectiles
                    (onMessage 1%positive (message 10 20 0 1) "q" 700%Z lonely))
            = 1.
Proof.
  assert (H1 : heap lonely !! 1%positive = Some alice) by reflexivity.
  assert (H2 : Projectiles lonely !! "q" = None) by reflexivity.
  split; [exact H1|]. split; [exact H2|].
  destruct (C5_shoot_creates_one_projectile 1%positive alice
              (message 10 20 0 1) "q" 700%Z lonely H1 H2)
    as (p' & Hp' & Hpos & _ & Hshoot).
  exists p'. split; [exact Hp'|]. split; [exact Hpos|].
  exact (proj1 (Hshoot eq_refl)).
Defined.

Lemma C6_witness :
  NoDup ["p"]
  ∧ count (removes "p")
      (updateProjectiles_tick 16000000%Z (λ _, ["a"; "b"]) ["p"] duel).2 ≤ 1
  ∧ count (kills "p")
      (updateProjectiles_tick 16000000%Z (λ _, ["a"; "b"]) ["p"] duel).2 ≤ 1.
Proof.
  assert (H : NoDup ["p"]) by by_decide.
  destruct (C6_projectile_removed_by_one_cause 16000000%Z (λ _, ["a"; "b"])
              ["p"] duel H) as (Hid & _).
  destruct (Hid "p") as (Hrm & Hkl & _).
  split; [exact H|]. split; [exact Hrm|exact Hkl].
Defined.

Lemma C8_witness :
  NoDup ["p"]
  ∧ ∃ proj player,
      Projectiles duel !! "p" = Some proj
      ∧ playerAt duel "b" = Some player
      ∧ Player.ID player ≠ Projectile.Owner proj.
Proof.
  assert (H : NoDup ["p"]) by by_decide.
  split; [exact H|].
  apply (proj1 (C8_owner_is_never_hit 16000000%Z (λ _, ["a"; "b"]) ["p"]
                  duel H) "p" "b").
  right. vm_compute. apply list_elem_of_further, list_elem_of_further,
    list_elem_of_here.
Defined.

Lemma C9_witness :
  is_range (Players graveyard) ["b"; "a"]
  ∧ heap (resetPlayers ["b"; "a"] graveyard) !! 2%positive = Some bob
  ∧ Projectiles (resetPlayers ["b"; "a"] graveyard) = Projectiles graveyard.
Proof.
  assert (H : is_range (Players graveyard) ["b"; "a"]) by range_check.
  destruct (C9_reset_only_respawns_players ["b"; "a"] graveyard H)
    as (_ & Hprojs & _ & Hheap & _).
  split; [exact H|]. split; [|exact Hprojs].
  exact (Hheap "b" 2%positive (Player.setDead true bob) eq_refl eq_refl).
Defined.

Lemma C10_witness :
  heap graveyard !! 2%positive = Some (Player.setDead true bob)
  ∧ Player.Dead (Player.setDead true bob) = true
  ∧ (∃ p', heap (onMessage 2%positive (message 10 20 0 1) "q" 700%Z graveyard)
             !! 2%positive = Some p'
           ∧ position p' = (10%float, 20%float))
  ∧ (∃ proj, Projectiles
               (onMessage 2%positive (message 10 20 0 1) "q" 700%Z graveyard)
               !! "q" = Some proj
             ∧ Projectile.Owner proj = "b"
             ∧ (Projectile.DX proj, Projectile.DY proj) = (0%float, 1%float)).
Proof.
  assert (H1 : heap graveyard !! 2%positive = Some (Player.setDead true bob))
    by reflexivity.
  assert (H2 : Player.Dead (Player.setDead true bob) = true) by reflexivity.
  destruct (C10_dead_player_still_acts 2%positive (Player.setDead true bob)
              (message 10 20 0 1) "q" 700%Z graveyard H1 H2)
    as (_ & _ & _ & Hmove & Hshoot).
  split; [exact H1|]. split; [exact H2|].
  split; [exact (Hmove eq_refl)|exact (Hshoot eq_refl)].
Defined.

(** * More properties of the server *)

(** ** Sessions *)

Lemma applyMove_Conn move p : Player.Conn (applyMove move p) = Player.Conn p.
Proof. unfold applyMove. by destruct (nonzero _ _). Qed.

Lemma playerAt_snapshot gs k : snapPlayers (snapshot gs) !! k = playerAt gs k.
Proof. unfold snapshot, playerAt. simpl. apply lookup_omap. Qed.

Lemma applyShoot_lookup pid p shoot now (projs : gmap string Projectile.t) id proj :
  applyShoot pid p shoot now projs !! id = Some proj →
  projs !! id = Some proj
  ∨ (id = pid ∧ proj = newProjectile pid p shoot now
     ∧ nonzero (Shoot.DX shoot) (Shoot.DY shoot) = true).
Proof.
  unfold applyShoot. destruct (nonzero _ _); [|by left].
  destruct (decide (id = pid)) as [->|Hne].
  - rewrite lookup_insert_eq. intros [= <-]. by right.
  - rewrite lookup_insert_ne by done. by left.
Qed.

(** What the messages of one session can and cannot change. *)
Lemma handleConn_loop_inv l inputs : ∀ gs p,
  heap gs !! l = Some p →
  Players (handleConn_loop l inputs gs) = Players gs
  ∧ (∀ l', l' ≠ l → heap (handleConn_loop l inputs gs) !! l' = heap gs !! l')
  ∧ (∃ p', heap (handleConn_loop l inputs gs) !! l = Some p'
           ∧ Player.ID p' = Player.ID p
           ∧ Player.Dead p' = Player.Dead p
           ∧ Player.Conn p' = Player.Conn p)
  ∧ (∀ id proj,
       Projectiles (handleConn_loop l inputs gs) !! id = Some proj →
       Projectiles gs !! id = Some proj
       ∨ (Projectile.Owner proj = Player.ID p
          ∧ Projectile.ID proj = id
          ∧ ∃ i, i ∈ inputs ∧ fresh_uuid i = id
                 ∧ Projectile.Expiry proj = (clock i + 5000000000)%Z)).
Proof.
  induction inputs as [|i inputs IH] using rev_ind; intros gs p Hp.
  { split_and!; try done; [by exists p|by left]. }
  destruct (IH gs p Hp) as (HP & Hother & (q & Hq & HID & HDead & HConn) & Hprojs).
  rewrite handleConn_loop_snoc. split_and!.
  - by rewrite onMessage_Players.
  - intros l' Hne. by rewrite onMessage_other, Hother.
  - exists (applyMove (ClientAction.Move (action i)) q).
    rewrite (onMessage_self _ _ _ _ _ _ Hq).
    by rewrite applyMove_ID, applyMove_Dead, applyMove_Conn.
  - intros id proj. rewrite (onMessage_Projectiles _ _ _ _ _ _ Hq).
    intros [Hold|(-> & -> & _)]%applyShoot_lookup.
    + destruct (Hprojs id proj Hold) as [?|(? & ? & j & Hj & ? & ?)]; [by left|].
      right. split_and!; try done. exists j. rewrite elem_of_app. by split; [left|].
    + right. simpl. rewrite applyMove_ID. split_and!; try done.
      exists i. rewrite elem_of_app. split; [right; apply list_elem_of_here|done].
Qed.

(** ** What every step keeps *)

Lemma keyed_kept gs gs' :
  keyed gs →
  (∀ k l, Players gs' !! k = Some l → Players gs !! k = Some l) →
  idsKept gs gs' →
  keyed gs'.
Proof.
  intros Hkeyed Hsub Hids k l Hk.
  destruct (Hkeyed k l (Hsub k l Hk)) as (p & Hp & HID).
  destruct (Hids l p Hp) as (p' & Hp' & HID'). exists p'. split; congruence.
Qed.

Lemma sameFlight_refl proj : sameFlight proj proj.
Proof. by repeat split. Qed.

Lemma sameFlight_trans p1 p2 p3 :
  sameFlight p1 p2 → sameFlight p2 p3 → sameFlight p1 p3.
Proof. unfold sameFlight. intuition congruence. Qed.

Lemma sameFlight_advance proj : sameFlight proj (Projectile.advance proj).
Proof. by repeat split. Qed.

Lemma projectilesKeyed_kept gs gs' :
  projectilesKeyed gs →
  idsKept gs gs' →
  (∀ id proj', Projectiles gs' !! id = Some proj' →
     ∃ proj, Projectiles gs !! id = Some proj ∧ sameFlight proj proj') →
  projectilesKeyed gs'.
Proof.
  intros Hpk Hids Hflight id proj' Hproj'.
  destruct (Hflight id proj' Hproj')
    as (proj & Hproj & HID & HOwner & _ & _ & HSpeed & _).
  destruct (Hpk id proj Hproj) as (? & ? & l & p & Hp & Hown).
  destruct (Hids l p Hp) as (p' & Hp' & HID').
  split_and!; [congruence|congruence|]. exists l, p'. split; congruence.
Qed.

Lemma onConnect_keyed l playerID conn gs :
  heap gs !! l = None → keyed gs → keyed (onConnect l playerID conn gs).
Proof.
  intros Hfresh Hkeyed k l'. simpl.
  destruct (decide (k = playerID)) as [->|Hne].
  - rewrite lookup_insert_eq. intros [= <-]. eexists.
    by rewrite lookup_insert_eq.
  - rewrite lookup_insert_ne by done. intros Hk.
    destruct (Hkeyed k l' Hk) as (p & Hp & HID). exists p.
    rewrite lookup_insert_ne; [done|]. intros ->. congruence.
Qed.

Lemma onConnect_idsKept l playerID conn gs :
  heap gs !! l = None → idsKept gs (onConnect l playerID conn gs).
Proof.
  intros Hfresh l' p Hp. exists p. split; [|done]. simpl.
  rewrite lookup_insert_ne; [done|]. intros ->. congruence.
Qed.

Lemma onMessage_idsKept l msg pid now gs :
  idsKept gs (onMessage l msg pid now gs).
Proof.
  intros l' p Hp. destruct (decide (l' = l)) as [->|Hne].
  - rewrite (onMessage_self _ _ _ _ _ _ Hp). eexists. split; [done|].
    apply applyMove_ID.
  - rewrite onMessage_other by done. by exists p.
Qed.

Lemma onDisconnect_heap l gs : heap (onDisconnect l gs) = heap gs.
Proof. unfold onDisconnect. by destruct (heap gs !! l). Qed.

Lemma onDisconnect_Projectiles l gs :
  Projectiles (onDisconnect l gs) = Projectiles gs.
Proof. unfold onDisconnect. by destruct (heap gs !! l). Qed.

Lemma onDisconnect_Players l gs k :
  Players (onDisconnect l gs) !! k =
    match heap gs !! l with
    | Some p => if decide (Player.ID p = k) then None else Players gs !! k
    | None => Players gs !! k
    end.
Proof.
  unfold onDisconnect. destruct (heap gs !! l) as [p|]; [simpl|done].
  apply lookup_delete.
Qed.

Lemma evolves_idsKept gs gs' : evolves gs gs' → idsKept gs gs'.
Proof.
  intros [_ Hheap] l p Hp. destruct (Hheap l) as [E|(q & Hq & Hq')].
  - exists p. by rewrite E.
  - exists (Player.setDead true q). split; [done|]. simpl. congruence.
Qed.

(** The broadcast loop over the connections only forgets players. *)
Lemma sendAll_inv writeFails keys : ∀ gs,
  heap (sendAll writeFails keys gs) = heap gs
  ∧ Projectiles (sendAll writeFails keys gs) = Projectiles gs
  ∧ ∀ k, Players (sendAll writeFails keys gs) !! k = Players gs !! k
         ∨ Players (sendAll writeFails keys gs) !! k = None.
Proof.
  induction keys as [|k0 keys IH]; intros gs; simpl.
  { split_and!; try done. by left. }
  destruct (playerAt gs k0) as [p|]; [|apply IH].
  destruct (writeFails (Player.Conn p)); [|apply IH].
  destruct (IH {| heap := heap gs;
                  Players := delete (Player.ID p) (Players gs);
                  Projectiles := Projectiles gs |}) as (Hh & Hq & HP).
  split_and!; [done|done|]. intros k. destruct (HP k) as [-> | ->]; [|by right].
  simpl. rewrite lookup_delete. case_decide; [by right|by left].
Qed.

Lemma resetPlayers_idsKept keys gs : idsKept gs (resetPlayers keys gs).
Proof.
  intros l p Hp. destruct (resetPlayers_inv keys gs) as (_ & _ & Hheap).
  destruct (Hheap l) as ([->| ->] & _).
  - by exists p.
  - rewrite Hp. by exists (respawn p).
Qed.

Lemma Step_sameFlight now keys id gs gs' tr id' proj' :
  Step now keys id gs gs' tr →
  Projectiles gs' !! id' = Some proj' →
  ∃ proj, Projectiles gs !! id' = Some proj ∧ sameFlight proj proj'.
Proof.
  intros [Hnone|p Hp Hlt|p gs1 tr1 Hp Hle HS] Hproj'.
  - exists proj'. split; [done|apply sameFlight_refl].
  - simpl in Hproj'. apply lookup_delete_Some in Hproj' as [_ Hproj'].
    exists proj'. split; [done|apply sameFlight_refl].
  - assert (Hmoved : <[id := Projectile.advance p]> (Projectiles gs) !! id'
                     = Some proj').
    { destruct (Scan_Projectiles _ _ _ _ _ _ HS) as [E|[E _]];
        rewrite E in Hproj'; simpl in Hproj'; [done|].
      by apply lookup_delete_Some in Hproj' as [_ ?]. }
    destruct (decide (id' = id)) as [->|Hne].
    + rewrite lookup_insert_eq in Hmoved. injection Hmoved as <-.
      exists p. split; [done|apply sameFlight_advance].
    + rewrite lookup_insert_ne in Hmoved by done.
      exists proj'. split; [done|apply sameFlight_refl].
Qed.

(** A tick creates no projectile, and changes nothing but the position of
    those it keeps. *)
Lemma tick_sameFlight now plOrder projOrder : ∀ gs id proj',
  Projectiles (updateProjectiles_tick now plOrder projOrder gs).1 !! id
    = Some proj' →
  ∃ proj, Projectiles gs !! id = Some proj ∧ sameFlight proj proj'.
Proof.
  induction projOrder as [|id0 rest IH]; intros gs id proj'.
  { intros H. exists proj'. split; [done|apply sameFlight_refl]. }
  rewrite tick_cons. simpl. intros H.
  destruct (IH _ _ _ H) as (proj1 & Hproj1 & Hf1).
  destruct (Step_sameFlight _ _ _ _ _ _ _ _
              (stepProjectile_Step now (plOrder id0) id0 gs) Hproj1)
    as (proj & Hproj & Hf).
  exists proj. split; [done|]. by eapply sameFlight_trans.
Qed.

Lemma ServerStep_keyed gs gs' : ServerStep gs gs' → keyed gs → keyed gs'.
Proof.
  intros [l id conn Hfresh|l msg pid now|l|now plOrder projOrder|wf keys|keys]
    Hkeyed.
  - by apply onConnect_keyed.
  - eapply keyed_kept; [done| |apply onMessage_idsKept].
    intros k l'. by rewrite onMessage_Players.
  - eapply keyed_kept; [done| |].
    + intros k l'. rewrite onDisconnect_Players.
      destruct (heap gs !! l); [|done]. by case_decide.
    + intros l' p. rewrite onDisconnect_heap. by exists p.
  - pose proof (tick_evolves now plOrder projOrder gs) as Hev.
    eapply keyed_kept; [done| |by apply evolves_idsKept].
    intros k l'. by rewrite (proj1 Hev).
  - destruct (sendAll_inv wf keys gs) as (Hh & _ & HP).
    eapply keyed_kept; [done| |].
    + intros k l'. destruct (HP k) as [->| ->]; done.
    + intros l' p. rewrite Hh. by exists p.
  - destruct (resetPlayers_inv keys gs) as (HP & _ & _).
    eapply keyed_kept; [done| |apply resetPlayers_idsKept].
    intros k l'. by rewrite HP.
Qed.

Lemma same_projectiles_flight (m m' : gmap string Projectile.t) :
  m' = m →
  ∀ id proj', m' !! id = Some proj' →
    ∃ proj, m !! id = Some proj ∧ sameFlight proj proj'.
Proof. intros -> id proj' H. exists proj'. split; [done|apply sameFlight_refl]. Qed.

Lemma ServerStep_projectilesKeyed gs gs' :
  ServerStep gs gs' → projectilesKeyed gs → projectilesKeyed gs'.
Proof.
  intros [l id conn Hfresh|l msg pid now|l|now plOrder projOrder|wf keys|keys]
    Hpk.
  - eapply projectilesKeyed_kept; [done|by apply onConnect_idsKept|].
    by apply same_projectiles_flight.
  - destruct (heap gs !! l) as [p|] eqn:Hp.
    2:{ unfold onMessage. by rewrite Hp. }
    intros i proj' Hproj'.
    rewrite (onMessage_Projectiles _ _ _ _ _ _ Hp) in Hproj'.
    apply applyShoot_lookup in Hproj' as [Hold|(-> & -> & _)].
    + destruct (Hpk i proj' Hold) as (? & ? & l0 & p0 & Hp0 & Hown).
      destruct (onMessage_idsKept l msg pid now gs l0 p0 Hp0)
        as (p0' & Hp0' & HID).
      split_and!; [done|done|]. exists l0, p0'. split; congruence.
    + split_and!; [done|done|].
      exists l, (applyMove (ClientAction.Move msg) p).
      split; [by apply onMessage_self|done].
  - eapply projectilesKeyed_kept; [done| |].
    + intros l' p. rewrite onDisconnect_heap. by exists p.
    + apply same_projectiles_flight, onDisconnect_Projectiles.
  - eapply projectilesKeyed_kept; [done| |apply tick_sameFlight].
    apply evolves_idsKept, tick_evolves.
  - destruct (sendAll_inv wf keys gs) as (Hh & HQ & _).
    eapply projectilesKeyed_kept; [done| |by apply same_projectiles_flight].
    intros l' p. rewrite Hh. by exists p.
  - destruct (resetPlayers_inv keys gs) as (_ & HQ & _).
    eapply projectilesKeyed_kept; [done|apply resetPlayers_idsKept|].
    by apply same_projectiles_flight.
Qed.

Lemma boot_keyed : keyed boot ∧ projectilesKeyed boot.
Proof. split; intros k x; simpl; by rewrite lookup_empty. Qed.

Lemma reachable_keyed gs : reachable gs → keyed gs ∧ projectilesKeyed gs.
Proof.
  unfold reachable. revert gs.
  apply (rtc_ind_r (λ gs, keyed gs ∧ projectilesKeyed gs) boot).
  - apply boot_keyed.
  - intros gs1 gs2 _ Hstep [IH1 IH2].
    split; [by eapply ServerStep_keyed|by eapply ServerStep_projectilesKeyed].
Qed.

Lemma lonely_reachable : reachable lonely.
Proof.
  apply rtc_once. apply (step_connect boot 1%positive "a" 1%N). reflexivity.
Qed.

Lemma arena_reachable : reachable arena.
Proof.
  eapply rtc_r; [apply lonely_reachable|].
  apply (step_connect lonely 2%positive "b" 2%N). reflexivity.
Qed.

Lemma duel_reachable : reachable duel.
Proof.
  eapply rtc_r; [apply arena_reachable|].
  apply (step_message arena 1%positive (message 0 0 1 0) "p" 0%Z).
Qed.

Lemma graveyard_reachable : reachable graveyard.
Proof.
  unfold reachable. rewrite <- graveyard_reached.
  eapply rtc_r; [eapply rtc_r; [apply duel_reachable|]|].
  - apply (step_physics duel 16000000%Z (λ _, ["a"; "b"]) ["p"]).
  - apply step_message.
Qed.

(** ** Connecting, playing, leaving *)

(** X1: a connection registers its player under the new id at the spawn
    point (50,50), alive, and touches nothing else: the other players and the
    projectiles are as before.  The store has one player more when the id is
    new, and as many as before when the id was in use (the newcomer takes the
    place of the player that had it). *)
Theorem X1_connect_registers_spawned_player
    (l : loc) (playerID : string) (conn : N) (gs : GameState) :
  heap gs !! l = None →
  keyed gs →
  let gs' := onConnect l playerID conn gs in
  playerAt gs' playerID
    = Some {| Player.ID := playerID; Player.X := 50%float;
              Player.Y := 50%float; Player.Dead := false;
              Player.Conn := conn |}
  ∧ (∀ k, k ≠ playerID → playerAt gs' k = playerAt gs k)
  ∧ Projectiles gs' = Projectiles gs
  ∧ size (Players gs')
      = match Players gs !! playerID with
        | Some _ => size (Players gs)
        | None => S (size (Players gs))
        end.
Proof.
  intros Hfresh Hkeyed gs'. split_and!.
  - unfold playerAt. simpl. rewrite lookup_insert_eq. simpl.
    apply lookup_insert_eq.
  - intros k Hne. unfold playerAt. simpl. rewrite lookup_insert_ne by done.
    destruct (Players gs !! k) as [l'|] eqn:Hk; [simpl|done].
    destruct (Hkeyed k l' Hk) as (p & Hp & _).
    rewrite lookup_insert_ne; [done|]. intros ->. congruence.
  - done.
  - simpl. destruct (Players gs !! playerID) as [l0|] eqn:Hk.
    + by eapply map_size_insert_Some.
    + by apply map_size_insert_None.
Qed.

Lemma X1_witness :
  heap lonely !! 2%positive = None
  ∧ playerAt (onConnect 2%positive "b" 2 lonely) "b" = Some bob
  ∧ size (Players (onConnect 2%positive "b" 2 lonely)) = 2.
Proof.
  assert (H1 : heap lonely !! 2%positive = None) by reflexivity.
  destruct (X1_connect_registers_spawned_player 2%positive "b" 2 lonely H1
              (proj1 (reachable_keyed lonely lonely_reachable)))
    as (Hat & _ & _ & Hsize).
  split; [exact H1|]. split; [exact Hat|exact Hsize].
Defined.

(** X2: a whole connection, from the handshake to the removal of the player,
    leaves the store with the players it had: the session's own player is
    gone again, and nobody else was touched.  What stays behind are the
    projectiles the session fired, each owned by its id and stored under a
    uuid it drew; a connection whose handshake failed leaves none. *)
Theorem X2_session_leaves_only_its_projectiles
    (h : Handshake) (l : loc) (playerID : string) (conn : N)
    (inputs : list Inbound) (gs : GameState) :
  heap gs !! l = None →
  Players gs !! playerID = None →
  let gs' := handleConn h l playerID conn inputs gs in
  Players gs' = Players gs
  ∧ (∀ l', l' ≠ l → heap gs' !! l' = heap gs !! l')
  ∧ (∀ id proj, Projectiles gs' !! id = Some proj →
       Projectiles gs !! id = Some proj
       ∨ (h = Established
          ∧ Projectile.Owner proj = playerID
          ∧ ∃ i, i ∈ inputs ∧ fresh_uuid i = id
                 ∧ Projectile.Expiry proj = (clock i + 5000000000)%Z))
  ∧ (h ≠ Established → Projectiles gs' = Projectiles gs).
Proof.
  intros Hfresh Hid gs'.
  set (gs1 := onConnect l playerID conn gs).
  set (p1 := {| Player.ID := playerID; Player.X := 50%float;
                Player.Y := 50%float; Player.Dead := false;
                Player.Conn := conn |}).
  assert (Hp1 : heap gs1 !! l = Some p1) by apply lookup_insert_eq.
  assert (Hback : delete playerID (Players gs1) = Players gs).
  { simpl. by apply delete_insert_id. }
  assert (Hother1 : ∀ l', l' ≠ l → heap gs1 !! l' = heap gs !! l').
  { intros l' Hne. simpl. by apply lookup_insert_ne. }
  destruct h; subst gs'; simpl.
  - split_and!; try done. by left.
  - fold gs1. unfold onDisconnect. rewrite Hp1. simpl.
    fold p1. split_and!; [exact Hback|done| |done]. by left.
  - fold gs1.
    destruct (handleConn_loop_inv l inputs gs1 p1 Hp1)
      as (HP & Hother & (p' & Hp' & HID & _) & Hprojs).
    unfold onDisconnect. rewrite Hp'. simpl. rewrite HP, HID.
    split_and!; [exact Hback| | |done].
    + intros l' Hne. by rewrite Hother, Hother1.
    + intros id proj Hproj.
      destruct (Hprojs id proj Hproj) as [?|(? & _ & ?)]; [by left|by right].
Qed.

Lemma X2_witness :
  heap lonely !! 2%positive = None
  ∧ Players lonely !! "b" = None
  ∧ Players (handleConn Established 2%positive "b" 2 session_inputs lonely)
    = Players lonely.
Proof.
  assert (H1 : heap lonely !! 2%positive = None) by reflexivity.
  assert (H2 : Players lonely !! "b" = None) by reflexivity.
  split; [exact H1|]. split; [exact H2|].
  exact (proj1 (X2_session_leaves_only_its_projectiles Established 2%positive
                  "b" 2 session_inputs lonely H1 H2)).
Defined.

(** X3: when a session ends its player is gone from the next snapshot, the
    other players are in it as before, and so are all projectiles, those of
    the leaver included.  Ending it twice, or ending a session whose player
    the broadcast has dropped already, changes nothing more. *)
Theorem X3_disconnect_removes_player_from_snapshot
    (l : loc) (p : Player.t) (gs : GameState) :
  heap gs !! l = Some p →
  let gs' := onDisconnect l gs in
  snapPlayers (snapshot gs') !! Player.ID p = None
  ∧ (∀ k, k ≠ Player.ID p →
       snapPlayers (snapshot gs') !! k = snapPlayers (snapshot gs) !! k)
  ∧ snapProjectiles (snapshot gs') = snapProjectiles (snapshot gs)
  ∧ heap gs' = heap gs
  ∧ onDisconnect l gs' = gs'
  ∧ (Players gs !! Player.ID p = None → gs' = gs).
Proof.
  intros Hp gs'.
  assert (Hgs' : gs' = {| heap := heap gs;
                          Players := delete (Player.ID p) (Players gs);
                          Projectiles := Projectiles gs |}).
  { subst gs'. unfold onDisconnect. by rewrite Hp. }
  rewrite Hgs'. split_and!.
  - rewrite playerAt_snapshot. unfold playerAt. simpl.
    by rewrite lookup_delete_eq.
  - intros k Hne. rewrite !playerAt_snapshot. unfold playerAt. simpl.
    by rewrite lookup_delete_ne.
  - done.
  - done.
  - unfold onDisconnect. simpl. rewrite Hp. simpl.
    by rewrite delete_delete_eq.
  - intros Hgone. rewrite delete_id by done. by destruct gs.
Qed.

Lemma X3_witness :
  heap arena !! 2%positive = Some bob
  ∧ snapPlayers (snapshot (onDisconnect 2%positive arena)) !! "b" = None
  ∧ snapPlayers (snapshot (onDisconnect 2%positive arena)) !! "a"
    = snapPlayers (snapshot arena) !! "a".
Proof.
  assert (H : heap arena !! 2%positive = Some bob) by reflexivity.
  destruct (X3_disconnect_removes_player_from_snapshot 2%positive bob arena H)
    as (Hgone & Hothers & _).
  split; [exact H|]. split; [exact Hgone|].
  apply (Hothers "a"). vm_compute. discriminate.
Defined.

(** X4: in every store the server can reach, each key of the players map
    leads to a player object that carries this key as its id, so that no two
    keys share an object; each projectile is stored under its own id, flies at
    speed 15, and is owned by a player that has connected. *)
Theorem X4_reachable_stores_are_keyed (gs : GameState) :
  reachable gs →
  keyed gs
  ∧ projectilesKeyed gs
  ∧ (∀ k1 k2 l, Players gs !! k1 = Some l → Players gs !! k2 = Some l →
       k1 = k2).
Proof.
  intros Hreach. destruct (reachable_keyed gs Hreach) as [Hk Hp].
  split_and!; [done|done|].
  intros k1 k2 l H1 H2.
  destruct (Hk k1 l H1) as (p1 & Hp1 & <-).
  destruct (Hk k2 l H2) as (p2 & Hp2 & <-). congruence.
Qed.

Lemma X4_witness :
  reachable graveyard
  ∧ ∃ l p, heap graveyard !! l = Some p ∧ Player.ID p = Projectile.Owner shot.
Proof.
  split; [exact graveyard_reachable|].
  destruct (X4_reachable_stores_are_keyed graveyard graveyard_reachable)
    as (_ & Hpk & _).
  exact (proj2 (proj2 (Hpk "p" shot eq_refl))).
Defined.

(** ** Broadcast: dropped connections *)

Lemma keyed_playerAt gs k p :
  keyed gs → playerAt gs k = Some p → Player.ID p = k.
Proof.
  intros Hkeyed (l & Hl & Hp)%playerAt_Some.
  destruct (Hkeyed k l Hl) as (p' & Hp' & HID). congruence.
Qed.

Lemma keyed_delete gs k :
  keyed gs →
  keyed {| heap := heap gs; Players := delete k (Players gs);
           Projectiles := Projectiles gs |}.
Proof.
  intros Hkeyed k' l. simpl. intros [_ Hk']%lookup_delete_Some.
  by apply Hkeyed.
Qed.

Lemma dropped_delete writeFails gs k0 k :
  k ≠ k0 →
  dropped writeFails
    {| heap := heap gs; Players := delete k0 (Players gs);
       Projectiles := Projectiles gs |} k
  = dropped writeFails gs k.
Proof.
  intros Hne. unfold dropped, playerAt. simpl. by rewrite lookup_delete_ne.
Qed.

(** In a keyed store the loop over the connections forgets exactly the
    players it visits whose connection fails. *)
Lemma sendAll_keyed writeFails keys : ∀ gs,
  keyed gs →
  ∀ k,
    (k ∈ keys → dropped writeFails gs k = true →
       Players (sendAll writeFails keys gs) !! k = None)
    ∧ ((k ∈ keys → dropped writeFails gs k = false) →
         Players (sendAll writeFails keys gs) !! k = Players gs !! k).
Proof.
  induction keys as [|k0 keys IH]; intros gs Hkeyed k.
  { split; [by intros ?%elem_of_nil|done]. }
  simpl. destruct (playerAt gs k0) as [p|] eqn:Hat.
  2:{ destruct (IH gs Hkeyed k) as [Hin Hout]. split.
      - intros [->|Hk]%elem_of_cons Hdrop; [|by apply Hin].
        unfold dropped in Hdrop. by rewrite Hat in Hdrop.
      - intros Hno. apply Hout. intros Hk. apply Hno.
        by apply list_elem_of_further. }
  destruct (writeFails (Player.Conn p)) eqn:Hwf.
  2:{ destruct (IH gs Hkeyed k) as [Hin Hout]. split.
      - intros [->|Hk]%elem_of_cons Hdrop; [|by apply Hin].
        unfold dropped in Hdrop. rewrite Hat in Hdrop. congruence.
      - intros Hno. apply Hout. intros Hk. apply Hno.
        by apply list_elem_of_further. }
  rewrite (keyed_playerAt gs k0 p Hkeyed Hat).
  set (gs1 := {| heap := heap gs; Players := delete k0 (Players gs);
                 Projectiles := Projectiles gs |}).
  destruct (IH gs1 (keyed_delete gs k0 Hkeyed) k) as [Hin Hout].
  destruct (sendAll_inv writeFails keys gs1) as (_ & _ & HP).
  destruct (decide (k = k0)) as [->|Hne].
  - assert (Hgone : Players (sendAll writeFails keys gs1) !! k0 = None).
    { destruct (HP k0) as [-> | ->]; [|done]. apply lookup_delete_eq. }
    split; [done|]. intros Hno.
    assert (Hdrop : dropped writeFails gs k0 = true).
    { unfold dropped. by rewrite Hat. }
    rewrite Hno in Hdrop; [done|apply list_elem_of_here].
  - pose proof (dropped_delete writeFails gs k0 k Hne) as Hd.
    fold gs1 in Hd. rewrite Hd in Hin, Hout.
    assert (HPk : Players gs1 !! k = Players gs !! k)
      by (by apply lookup_delete_ne).
    split.
    + intros [?|Hk]%elem_of_cons Hdrop; [done|by apply Hin].
    + intros Hno. rewrite Hout, HPk; [done|].
      intros Hk. apply Hno. by apply list_elem_of_further.
Qed.

Lemma GameState_eq (a b : GameState) :
  heap a = heap b → Players a = Players b → Projectiles a = Projectiles b →
  a = b.
Proof. destruct a, b. simpl. by intros -> -> ->. Qed.

(** X5: the broadcast takes from the store exactly the players whose
    connection it could not write to: a registered player stays if and only
    if the write to it succeeded.  It never touches a player object or a
    projectile, and when every write succeeds the store is left as it was. *)
Theorem X5_broadcast_drops_failed_connections
    (writeFails : N → bool) (keys : list string) (gs : GameState) :
  keyed gs →
  is_range (Players gs) keys →
  let gs' := sendAll writeFails keys gs in
  heap gs' = heap gs
  ∧ Projectiles gs' = Projectiles gs
  ∧ (∀ k, Players gs' !! k =
            if dropped writeFails gs k then None else Players gs !! k)
  ∧ ((∀ k, dropped writeFails gs k = false) → gs' = gs).
Proof.
  intros Hkeyed Hrange gs'.
  destruct (sendAll_inv writeFails keys gs) as (Hh & Hq & _).
  assert (Hlookup : ∀ k, Players gs' !! k =
            if dropped writeFails gs k then None else Players gs !! k).
  { intros k. destruct (sendAll_keyed writeFails keys gs Hkeyed k) as [Hin Hout].
    destruct (dropped writeFails gs k) eqn:Hdrop.
    - apply Hin; [|done]. unfold dropped in Hdrop.
      destruct (playerAt gs k) as [p|] eqn:Hat; [|done].
      apply playerAt_Some in Hat as (l & Hl & _).
      by eapply is_range_elem.
    - by apply Hout. }
  split_and!; [done|done|done|].
  intros Hok. apply GameState_eq; [done| |done].
  apply map_eq. intros k. by rewrite Hlookup, Hok.
Qed.

Lemma X5_witness :
  is_range (Players arena) ["a"; "b"]
  ∧ Players (sendAll (λ c, bool_decide (c = 2%N)) ["a"; "b"] arena) !! "b"
    = None
  ∧ Players (sendAll (λ c, bool_decide (c = 2%N)) ["a"; "b"] arena) !! "a"
    = Some 1%positive.
Proof.
  assert (H : is_range (Players arena) ["a"; "b"]) by range_check.
  destruct (X5_broadcast_drops_failed_connections
              (λ c, bool_decide (c = 2%N)) ["a"; "b"] arena
              (proj1 (reachable_keyed arena arena_reachable)) H)
    as (_ & _ & Hlookup & _).
  split; [exact H|]. split; [exact (Hlookup "b")|exact (Hlookup "a")].
Defined.

(** ** Broadcast: the order of iteration does not matter *)

Lemma is_range_Permutation {A} (m : gmap string A) keys1 keys2 :
  is_range m keys1 → is_range m keys2 → keys1 ≡ₚ keys2.
Proof.
  intros [Hnd1 H1] [Hnd2 H2]. apply NoDup_Permutation; [done|done|].
  intros k. by rewrite H1, H2.
Qed.

Lemma is_range_length {A} (m : gmap string A) keys :
  is_range m keys → length keys = size m.
Proof.
  intros Hrange.
  rewrite (Permutation_length (is_range_Permutation m _ _ Hrange
                                 (is_range_dom m))).
  by rewrite <- size_dom.
Qed.

Lemma Lfilter_length_Permutation {A} (f : A → bool) (l l' : list A) :
  l ≡ₚ l' → length (List.filter f l) = length (List.filter f l').
Proof.
  induction 1 as [|x l l' _ IH|x y l|l1 l2 l3 _ IH1 _ IH2]; simpl.
  - done.
  - destruct (f x); simpl; by rewrite IH.
  - by destruct (f x), (f y).
  - by rewrite IH1.
Qed.

Lemma countAlive_order keys1 keys2 gs :
  is_range (Players gs) keys1 → is_range (Players gs) keys2 →
  countAlive keys1 gs = countAlive keys2 gs.
Proof.
  intros H1 H2. rewrite !countAlive_length. f_equal.
  apply Lfilter_length_Permutation. by eapply is_range_Permutation.
Qed.

(** What the reset leaves at an address depends on the store alone. *)
Lemma resetPlayers_range keys gs l :
  is_range (Players gs) keys →
  heap (resetPlayers keys gs) !! l =
    if decide (l ∈ (map_img (Players gs) : gset loc))
    then respawn <$> heap gs !! l else heap gs !! l.
Proof.
  intros Hrange. destruct (resetPlayers_inv keys gs) as (_ & _ & Hheap).
  destruct (Hheap l) as (_ & Hin & Hout).
  case_decide as Himg.
  - apply elem_of_map_img in Himg as (k & Hk). apply Hin. exists k.
    split; [by eapply is_range_elem|done].
  - apply Hout. intros k _ Hk. apply Himg, elem_of_map_img. by exists k.
Qed.

Lemma resetPlayers_order keys1 keys2 gs :
  is_range (Players gs) keys1 → is_range (Players gs) keys2 →
  resetPlayers keys1 gs = resetPlayers keys2 gs.
Proof.
  intros H1 H2.
  destruct (resetPlayers_inv keys1 gs) as (HP1 & HQ1 & _).
  destruct (resetPlayers_inv keys2 gs) as (HP2 & HQ2 & _).
  apply GameState_eq; [|congruence|congruence].
  apply map_eq. intros l. by rewrite !resetPlayers_range.
Qed.

Lemma sendAll_order writeFails keys1 keys2 gs :
  keyed gs →
  is_range (Players gs) keys1 → is_range (Players gs) keys2 →
  sendAll writeFails keys1 gs = sendAll writeFails keys2 gs.
Proof.
  intros Hkeyed H1 H2.
  destruct (sendAll_inv writeFails keys1 gs) as (Hh1 & Hq1 & _).
  destruct (sendAll_inv writeFails keys2 gs) as (Hh2 & Hq2 & _).
  apply GameState_eq; [congruence| |congruence].
  apply map_eq. intros k.
  destruct (sendAll_keyed writeFails keys1 gs Hkeyed k) as [Hin1 Hout1].
  destruct (sendAll_keyed writeFails keys2 gs Hkeyed k) as [Hin2 Hout2].
  destruct (dropped writeFails gs k) eqn:Hdrop.
  - destruct (decide (k ∈ keys1)) as [Hk|Hk].
    + rewrite Hin1, Hin2; [done| |done|done|done].
      apply H2, H1, Hk.
    + rewrite Hout1, Hout2; [done| |done].
      intros Hk2. destruct Hk. apply H1, H2, Hk2.
  - by rewrite Hout1, Hout2.
Qed.

(** X6: a broadcast tick does not depend on the order in which Go ranges
    over the players map: whichever orders the three loops of the tick take,
    the snapshot sent, the decision to reset and the store afterwards are
    the same. *)
Theorem X6_broadcast_tick_ignores_iteration_order
    (writeFails : N → bool) (gs : GameState)
    (count1 send1 reset1 count2 send2 reset2 : list string) :
  keyed gs →
  is_range (Players gs) count1 → is_range (Players gs) count2 →
  is_range (Players gs) send1 → is_range (Players gs) send2 →
  is_range (Players (sendAll writeFails send1 gs)) reset1 →
  is_range (Players (sendAll writeFails send2 gs)) reset2 →
  broadcastState_tick writeFails count1 send1 reset1 gs
  = broadcastState_tick writeFails count2 send2 reset2 gs.
Proof.
  intros Hkeyed Hc1 Hc2 Hs1 Hs2 Hr1 Hr2. unfold broadcastState_tick.
  rewrite (countAlive_order count1 count2 gs Hc1 Hc2).
  rewrite (sendAll_order writeFails send1 send2 gs Hkeyed Hs1 Hs2) in Hr1 |- *.
  destruct (countAlive count2 gs =? 1)%Z; [|done].
  by rewrite (resetPlayers_order reset1 reset2 _ Hr1 Hr2).
Qed.

Lemma X6_witness :
  is_range (Players graveyard) ["a"; "b"]
  ∧ is_range (Players graveyard) ["b"; "a"]
  ∧ broadcastState_tick (λ _, false) ["a"; "b"] ["a"; "b"] ["a"; "b"] graveyard
    = broadcastState_tick (λ _, false) ["b"; "a"] ["b"; "a"] ["b"; "a"]
        graveyard.
Proof.
  assert (H1 : is_range (Players graveyard) ["a"; "b"]) by range_check.
  assert (H2 : is_range (Players graveyard) ["b"; "a"]) by range_check.
  split; [exact H1|]. split; [exact H2|].
  apply (X6_broadcast_tick_ignores_iteration_order (λ _, false) graveyard
           ["a"; "b"] ["a"; "b"] ["a"; "b"] ["b"; "a"] ["b"; "a"] ["b"; "a"]
           (proj1 (reachable_keyed graveyard graveyard_reachable)));
    try exact H1; try exact H2; range_check.
Defined.

(** ** The round after a reset, and the round that never resets *)

Lemma aliveAt_all_length gs keys :
  (∀ k, k ∈ keys → aliveAt gs k = true) →
  length (List.filter (aliveAt gs) keys) = length keys.
Proof.
  intros Hall. rewrite filter_all_true; [done|]. by apply Forall_forall.
Qed.

(** X7: right after the reset every player of the store is alive, so the
    next tick counts all of them: it resets again exactly when the store
    holds a single player, and with two players or more the round goes on. *)
Theorem X7_after_reset_everyone_is_alive
    (keys : list string) (gs : GameState) :
  keyed gs →
  is_range (Players gs) keys →
  let gs' := resetPlayers keys gs in
  (∀ k, is_Some (Players gs' !! k) → living gs' k)
  ∧ countAlive keys gs' = Z.of_nat (size (Players gs'))
  ∧ (oneSurvivor gs' ↔ size (Players gs') = 1).
Proof.
  intros Hkeyed Hrange gs'.
  destruct (resetPlayers_inv keys gs) as (HP & _ & Hheap).
  fold gs' in HP.
  assert (Hrange' : is_range (Players gs') keys) by (by rewrite HP).
  assert (Hall : ∀ k, is_Some (Players gs' !! k) → living gs' k).
  { intros k [l Hl]. pose proof Hl as Hl'. rewrite HP in Hl'.
    destruct (Hkeyed k l Hl') as (p & Hp & _).
    destruct (Hheap l) as (_ & Hin & _).
    exists (respawn p). split; [|done].
    apply playerAt_Some. exists l. split; [done|]. subst gs'.
    rewrite Hin, Hp; [done|]. exists k. split; [|done].
    by eapply is_range_elem. }
  assert (Hcount : countAlive keys gs' = Z.of_nat (size (Players gs'))).
  { rewrite countAlive_length, aliveAt_all_length.
    - by rewrite (is_range_length _ _ Hrange').
    - intros k Hk. apply aliveAt_living, Hall. by apply Hrange'. }
  split_and!; [done|done|].
  rewrite <- (countAlive_one keys gs' Hrange'), Hcount. lia.
Qed.

Lemma X7_witness :
  is_range (Players graveyard) ["a"; "b"]
  ∧ living (resetPlayers ["a"; "b"] graveyard) "b"
  ∧ countAlive ["a"; "b"] (resetPlayers ["a"; "b"] graveyard) = 2%Z.
Proof.
  assert (H : is_range (Players graveyard) ["a"; "b"]) by range_check.
  destruct (X7_after_reset_everyone_is_alive ["a"; "b"] graveyard
              (proj1 (reachable_keyed graveyard graveyard_reachable)) H)
    as (Hall & Hcount & _).
  split; [exact H|]. split; [|exact Hcount].
  apply Hall. exists 2%positive. reflexivity.
Defined.

Lemma countAlive_allDead keys gs : allDead gs → countAlive keys gs = 0%Z.
Proof.
  intros Hdead. rewrite countAlive_length, filter_all_false; [done|].
  apply Forall_forall. intros k _. destruct (aliveAt gs k) eqn:E; [|done].
  by apply aliveAt_living, Hdead in E.
Qed.

Lemma allDead_kept gs gs' :
  allDead gs →
  (∀ k l, Players gs' !! k = Some l → Players gs !! k = Some l) →
  (∀ l p', heap gs' !! l = Some p' → Player.Dead p' = false →
     ∃ p, heap gs !! l = Some p ∧ Player.Dead p = false) →
  allDead gs'.
Proof.
  intros Hdead HP Hheap k (p' & (l & Hl & Hp')%playerAt_Some & Halive).
  destruct (Hheap l p' Hp' Halive) as (p & Hp & Hal).
  apply (Hdead k). exists p. split; [|done].
  apply playerAt_Some. exists l. split; [by apply HP|done].
Qed.

(** X8: a store in which no player is alive stays so: a broadcast tick that
    starts in it does not reset (the reset is for one survivor, not for
    none), and neither a message, a physics tick, a dropped connection nor a
    departure brings anybody back to life. *)
Theorem X8_no_survivor_no_reset (gs : GameState) :
  allDead gs →
  (∀ writeFails countOrder sendOrder resetOrder,
     let tick :=
       broadcastState_tick writeFails countOrder sendOrder resetOrder gs in
     reset tick = false ∧ allDead (after tick))
  ∧ (∀ l msg projectileID now, allDead (onMessage l msg projectileID now gs))
  ∧ (∀ now plOrder projOrder,
       allDead (updateProjectiles_tick now plOrder projOrder gs).1)
  ∧ (∀ l, allDead (onDisconnect l gs)).
Proof.
  intros Hdead.
  assert (Hsend : ∀ writeFails keys, allDead (sendAll writeFails keys gs)).
  { intros wf keys. destruct (sendAll_inv wf keys gs) as (Hh & _ & HP).
    eapply allDead_kept; [done| |].
    - intros k l. destruct (HP k) as [-> | ->]; done.
    - intros l p'. rewrite Hh. by exists p'. }
  split_and!.
  - intros wf c s r tick. subst tick. unfold broadcastState_tick.
    rewrite (countAlive_allDead c gs Hdead). simpl. split; [done|apply Hsend].
  - intros l msg pid now. eapply allDead_kept; [done| |].
    + intros k l'. by rewrite onMessage_Players.
    + intros l' p' Hp' Halive. destruct (decide (l' = l)) as [->|Hne].
      * destruct (heap gs !! l) as [p|] eqn:Hp.
        -- rewrite (onMessage_self _ _ _ _ _ _ Hp) in Hp'.
           injection Hp' as <-. exists p. split; [done|].
           by rewrite applyMove_Dead in Halive.
        -- unfold onMessage in Hp'. rewrite Hp in Hp'. congruence.
      * rewrite onMessage_other in Hp' by done. by exists p'.
  - intros now plOrder projOrder.
    destruct (tick_evolves now plOrder projOrder gs) as [HP Hheap].
    eapply allDead_kept; [done| |].
    + intros k l. by rewrite HP.
    + intros l p' Hp' Halive. destruct (Hheap l) as [E|(q & Hq & Hq')].
      * exists p'. by rewrite <- E.
      * rewrite Hq' in Hp'. injection Hp' as <-. done.
  - intros l. eapply allDead_kept; [done| |].
    + intros k l'. rewrite onDisconnect_Players.
      destruct (heap gs !! l); [|done]. by case_decide.
    + intros l' p'. rewrite onDisconnect_heap. by exists p'.
Qed.

Lemma allDead_check gs keys :
  is_range (Players gs) keys →
  forallb (λ k, negb (aliveAt gs k)) keys = true →
  allDead gs.
Proof.
  intros Hrange Hall k Hk.
  pose proof (living_in_range gs keys k Hrange Hk) as Hin.
  apply aliveAt_living in Hk.
  rewrite forallb_forall in Hall. apply list_elem_of_In in Hin.
  apply Hall in Hin. by rewrite Hk in Hin.
Qed.

Example trio_reached : onConnect 3%positive "c" 3 duel = trio.
Proof. reflexivity. Qed.

(** Both players can die in one tick. *)
Example stalemate_reached :
  (updateProjectiles_tick 16000000%Z (λ _, ["a"; "b"]) ["p"; "q"]
     (onMessage 2%positive (message 0 0 1 0) "q" 0%Z
        (onMessage 1%positive (message 0 0 1 0) "p" 0%Z arena))).1
  = stalemate.
Proof. reflexivity. Qed.

Lemma X8_witness :
  allDead stalemate
  ∧ reset (broadcastState_tick (λ _, false) ["a"; "b"] ["a"; "b"] ["a"; "b"]
             stalemate) = false.
Proof.
  assert (H : allDead stalemate).
  { apply (allDead_check stalemate ["a"; "b"]); [range_check|reflexivity]. }
  split; [exact H|].
  exact (proj1 (proj1 (X8_no_survivor_no_reset stalemate H) (λ _, false)
                  ["a"; "b"] ["a"; "b"] ["a"; "b"])).
Defined.

(** ** Physics: who is hit *)

Lemma scanPlayers_first id proj k post gs l player : ∀ pre,
  (∀ k', k' ∈ pre → ¬ target gs proj k') →
  Players gs !! k = Some l →
  heap gs !! l = Some player →
  Player.ID player ≠ Projectile.Owner proj →
  overlap player proj = true →
  ∃ ks, (∀ k', k' ∈ ks → k' ∈ pre)
        ∧ scanPlayers id proj (pre ++ k :: post) gs
          = (hit id l player gs, (EvTest id <$> ks) ++ [EvTest id k; EvHit id k]).
Proof.
  intros pre Hpre Hl Hp Hne Hov.
  induction pre as [|k0 pre IH]; simpl.
  { exists []. split; [done|]. rewrite Hl, Hp, decide_False by done.
    by rewrite Hov. }
  destruct IH as (ks & Hks & IH).
  { intros k' Hk'. apply Hpre. by apply list_elem_of_further. }
  rewrite IH.
  assert (Hskip : ∃ ks', (∀ k', k' ∈ ks' → k' ∈ k0 :: pre)
     ∧ (hit id l player gs, (EvTest id <$> ks) ++ [EvTest id k; EvHit id k])
       = (hit id l player gs, (EvTest id <$> ks') ++ [EvTest id k; EvHit id k])).
  { exists ks. split; [|done]. intros k' Hk'.
    by apply list_elem_of_further, Hks. }
  destruct (Players gs !! k0) as [l0|] eqn:Hl0; [|done].
  destruct (heap gs !! l0) as [p0|] eqn:Hp0; [|done].
  destruct (decide (Player.ID p0 = Projectile.Owner proj)); [done|].
  destruct (overlap p0 proj) eqn:Hov0.
  - destruct (Hpre k0); [apply list_elem_of_here|].
    exists p0. split_and!; [|done|done]. apply playerAt_Some. by exists l0.
  - exists (k0 :: ks). split; [|done].
    intros k' [->|Hk']%elem_of_cons;
      [apply list_elem_of_here|by apply list_elem_of_further, Hks].
Qed.

Lemma scanPlayers_no_target id proj gs : ∀ keys,
  (∀ k, k ∈ keys → ¬ target gs proj k) →
  (scanPlayers id proj keys gs).1 = gs.
Proof.
  induction keys as [|k0 keys IH]; intros Hno; simpl; [done|].
  assert (IH' : (scanPlayers id proj keys gs).1 = gs).
  { apply IH. intros k Hk. apply Hno. by apply list_elem_of_further. }
  destruct (Players gs !! k0) as [l0|] eqn:Hl0; [|done].
  destruct (heap gs !! l0) as [p0|] eqn:Hp0; [|done].
  destruct (decide (Player.ID p0 = Projectile.Owner proj)); [done|].
  destruct (overlap p0 proj) eqn:Hov0.
  - destruct (Hno k0); [apply list_elem_of_here|].
    exists p0. split_and!; [|done|done]. apply playerAt_Some. by exists l0.
  - by destruct (scanPlayers id proj keys gs).
Qed.

Lemma stepProjectile_live now keys id gs proj :
  Projectiles gs !! id = Some proj →
  (now ≤ Projectile.Expiry proj)%Z →
  stepProjectile now keys id gs =
    let sc := scanPlayers id (Projectile.advance proj) keys
                (moveTo id (Projectile.advance proj) gs) in
    (sc.1, EvAdvance id :: sc.2).
Proof.
  intros Hproj Hle. unfold stepProjectile, Time_After. rewrite Hproj.
  destruct (Z.ltb_spec (Projectile.Expiry proj) now); [lia|].
  simpl. by destruct (scanPlayers _ _ _ _).
Qed.

(** X9: a live projectile hits the first player, in the order of iteration,
    that is not its owner and has the advanced projectile inside its hitbox:
    that player is marked dead, nobody else is changed, and the projectile is
    removed.  When there is no such player the projectile stays in the store,
    advanced, and no player is changed. *)
Theorem X9_victim_is_first_target_in_order
    (now : Time) (keys : list string) (id : string) (gs : GameState)
    (proj : Projectile.t) :
  Projectiles gs !! id = Some proj →
  (now ≤ Projectile.Expiry proj)%Z →
  let proj' := Projectile.advance proj in
  let gs' := (stepProjectile now keys id gs).1 in
  let tr := (stepProjectile now keys id gs).2 in
  (∀ pre k post l player,
     keys = pre ++ k :: post →
     (∀ k', k' ∈ pre → ¬ target gs proj' k') →
     Players gs !! k = Some l →
     heap gs !! l = Some player →
     Player.ID player ≠ Projectile.Owner proj →
     overlap player proj' = true →
     heap gs' = <[l := Player.setDead true player]> (heap gs)
     ∧ Players gs' = Players gs
     ∧ Projectiles gs' = delete id (Projectiles gs)
     ∧ EvHit id k ∈ tr)
  ∧ ((∀ k, k ∈ keys → ¬ target gs proj' k) →
       heap gs' = heap gs
       ∧ Players gs' = Players gs
       ∧ Projectiles gs' = <[id := proj']> (Projectiles gs)).
Proof.
  intros Hproj Hle proj' gs' tr. subst gs' tr.
  rewrite (stepProjectile_live now keys id gs proj Hproj Hle). fold proj'.
  simpl. split.
  - intros pre k post l player -> Hpre Hl Hp Hne Hov.
    destruct (scanPlayers_first id proj' k post (moveTo id proj' gs) l player
                pre Hpre Hl Hp Hne Hov) as (ks & _ & ->).
    simpl. split_and!; [done|done|apply delete_insert_eq|].
    apply list_elem_of_further. rewrite elem_of_app. right.
    apply list_elem_of_further, list_elem_of_here.
  - intros Hno.
    by rewrite (scanPlayers_no_target id proj' (moveTo id proj' gs) keys Hno).
Qed.

Lemma X9_witness :
  Projectiles trio !! "p" = Some shot
  ∧ (16000000 ≤ Projectile.Expiry shot)%Z
  ∧ heap (stepProjectile 16000000%Z ["a"; "c"; "b"] "p" trio).1
    = <[3%positive := Player.setDead true carol]> (heap trio).
Proof.
  assert (H1 : Projectiles trio !! "p" = Some shot) by reflexivity.
  assert (H2 : (16000000 ≤ Projectile.Expiry shot)%Z)
    by (vm_compute; discriminate).
  split; [exact H1|]. split; [exact H2|].
  apply (proj1 (X9_victim_is_first_target_in_order 16000000%Z ["a"; "c"; "b"]
                  "p" trio shot H1 H2) ["a"] "c" ["b"] 3%positive carol);
    try reflexivity.
  - intros k' ->%list_elem_of_singleton (p & Hp & Hne & _).
    injection Hp as <-. by apply Hne.
  - vm_compute. discriminate.
Defined.

Lemma living_Some gs k l p :
  Players gs !! k = Some l → heap gs !! l = Some p →
  living gs k ↔ Player.Dead p = false.
Proof.
  intros Hl Hp. unfold living, playerAt. rewrite Hl. simpl. rewrite Hp.
  split; [by intros (q & [= <-] & ?)|by exists p].
Qed.

(** X10: when two players have the advanced projectile in their hitboxes,
    the one that Go's map iteration happens to visit first dies and the other
    one lives: an order that starts with the first player and an order that
    starts with the second give opposite outcomes. *)
Theorem X10_tie_break_follows_iteration_order
    (now : Time) (id : string) (gs : GameState) (proj : Projectile.t)
    (k1 k2 : string) (l1 l2 : loc) (p1 p2 : Player.t)
    (rest1 rest2 : list string) :
  Projectiles gs !! id = Some proj →
  (now ≤ Projectile.Expiry proj)%Z →
  Players gs !! k1 = Some l1 → heap gs !! l1 = Some p1 →
  Players gs !! k2 = Some l2 → heap gs !! l2 = Some p2 →
  l1 ≠ l2 →
  Player.ID p1 ≠ Projectile.Owner proj →
  Player.ID p2 ≠ Projectile.Owner proj →
  overlap p1 (Projectile.advance proj) = true →
  overlap p2 (Projectile.advance proj) = true →
  Player.Dead p1 = false → Player.Dead p2 = false →
  let first1 := (stepProjectile now (k1 :: rest1) id gs).1 in
  let first2 := (stepProjectile now (k2 :: rest2) id gs).1 in
  (¬ living first1 k1 ∧ living first1 k2)
  ∧ (living first2 k1 ∧ ¬ living first2 k2).
Proof.
  intros Hproj Hle Hl1 Hp1 Hl2 Hp2 Hll Hne1 Hne2 Hov1 Hov2 Hd1 Hd2 first1 first2.
  set (proj' := Projectile.advance proj) in *.
  assert (Hnil : ∀ k', k' ∈ @nil string →
                       ¬ target (moveTo id proj' gs) proj' k')
    by (by intros k' ?%elem_of_nil).
  destruct (scanPlayers_first id proj' k1 rest1 (moveTo id proj' gs) l1 p1 []
              Hnil Hl1 Hp1 Hne1 Hov1) as (ks1 & _ & E1).
  destruct (scanPlayers_first id proj' k2 rest2 (moveTo id proj' gs) l2 p2 []
              Hnil Hl2 Hp2 Hne2 Hov2) as (ks2 & _ & E2).
  simpl app in E1, E2.
  assert (H1 : heap first1 = <[l1 := Player.setDead true p1]> (heap gs)
               ∧ Players first1 = Players gs).
  { subst first1. rewrite (stepProjectile_live _ _ _ _ _ Hproj Hle).
    fold proj'. cbv zeta. by rewrite E1. }
  assert (H2 : heap first2 = <[l2 := Player.setDead true p2]> (heap gs)
               ∧ Players first2 = Players gs).
  { subst first2. rewrite (stepProjectile_live _ _ _ _ _ Hproj Hle).
    fold proj'. cbv zeta. by rewrite E2. }
  destruct H1 as [Hh1 HP1], H2 as [Hh2 HP2].
  split_and!.
  - rewrite (living_Some first1 k1 l1 (Player.setDead true p1)); [done|..].
    + by rewrite HP1.
    + rewrite Hh1. apply lookup_insert_eq.
  - rewrite (living_Some first1 k2 l2 p2); [done|by rewrite HP1|].
    rewrite Hh1. by rewrite lookup_insert_ne.
  - rewrite (living_Some first2 k1 l1 p1); [done|by rewrite HP2|].
    rewrite Hh2. by rewrite lookup_insert_ne.
  - rewrite (living_Some first2 k2 l2 (Player.setDead true p2)); [done|..].
    + by rewrite HP2.
    + rewrite Hh2. apply lookup_insert_eq.
Qed.

Lemma X10_witness :
  Projectiles trio !! "p" = Some shot
  ∧ (living (stepProjectile 16000000%Z ["b"; "c"] "p" trio).1 "c"
     ∧ ¬ living (stepProjectile 16000000%Z ["c"; "b"] "p" trio).1 "c").
Proof.
  assert (H1 : Projectiles trio !! "p" = Some shot) by reflexivity.
  assert (H2 : (16000000 ≤ Projectile.Expiry shot)%Z)
    by (vm_compute; discriminate).
  assert (Hbc : 2%positive ≠ 3%positive) by discriminate.
  assert (Hb : Player.ID bob ≠ Projectile.Owner shot)
    by (vm_compute; discriminate).
  assert (Hc : Player.ID carol ≠ Projectile.Owner shot)
    by (vm_compute; discriminate).
  destruct (X10_tie_break_follows_iteration_order 16000000%Z "p" trio shot
              "b" "c" 2%positive 3%positive bob carol ["c"] ["b"]
              H1 H2 eq_refl eq_refl eq_refl eq_refl Hbc Hb Hc
              eq_refl eq_refl eq_refl eq_refl)
    as ((_ & Hlive) & (_ & Hdead)).
  split; [exact H1|]. split; [exact Hlive|exact Hdead].
Defined.

(** ** Physics: the projectiles that stay *)



(** ** Projectiles outlive their owner *)

Lemma scanPlayers_without_owner id proj gs : ∀ keys,
  keyed gs →
  let left := {| heap := heap gs;
                 Players := delete (Projectile.Owner proj) (Players gs);
                 Projectiles := Projectiles gs |} in
  (scanPlayers id proj keys left).2 = (scanPlayers id proj keys gs).2
  ∧ heap (scanPlayers id proj keys left).1
    = heap (scanPlayers id proj keys gs).1
  ∧ Projectiles (scanPlayers id proj keys left).1
    = Projectiles (scanPlayers id proj keys gs).1
  ∧ Players (scanPlayers id proj keys left).1
    = delete (Projectile.Owner proj) (Players (scanPlayers id proj keys gs).1).
Proof.
  intros keys Hkeyed left.
  induction keys as [|k0 keys IH]; simpl; [done|].
  destruct (decide (k0 = Projectile.Owner proj)) as [->|Hne].
  - rewrite lookup_delete_eq.
    destruct (Players gs !! Projectile.Owner proj) as [l0|] eqn:Hl0; [|done].
    destruct (Hkeyed _ l0 Hl0) as (p0 & Hp0 & HID). rewrite Hp0.
    by rewrite decide_True.
  - rewrite lookup_delete_ne by done.
    destruct (Players gs !! k0) as [l0|]; [|done].
    destruct (heap gs !! l0) as [p0|]; [|done].
    destruct (decide (Player.ID p0 = Projectile.Owner proj)); [done|].
    destruct (overlap p0 proj); [done|].
    destruct (scanPlayers id proj keys left) as [gs1 tr1],
             (scanPlayers id proj keys gs) as [gs2 tr2].
    simpl in *. destruct IH as (-> & ? & ? & ?). done.
Qed.

(** X12: a projectile goes on as before when its owner leaves.  The physics
    step for it tests the same players in the same order, hits the same
    player or nobody, and leaves the same player objects and projectiles,
    whether the owner is still in the store or has disconnected. *)
Theorem X12_projectile_unaffected_by_owner_leaving
    (now : Time) (keys : list string) (id : string) (gs : GameState)
    (l : loc) (p : Player.t) (proj : Projectile.t) :
  keyed gs →
  heap gs !! l = Some p →
  Projectiles gs !! id = Some proj →
  Projectile.Owner proj = Player.ID p →
  let with_owner := stepProjectile now keys id gs in
  let without := stepProjectile now keys id (onDisconnect l gs) in
  without.2 = with_owner.2
  ∧ heap without.1 = heap with_owner.1
  ∧ Projectiles without.1 = Projectiles with_owner.1
  ∧ Players without.1 = delete (Player.ID p) (Players with_owner.1).
Proof.
  intros Hkeyed Hp Hproj Hown with_owner without.
  subst with_owner without. unfold onDisconnect. rewrite Hp.
  unfold stepProjectile. simpl. rewrite Hproj, <- Hown.
  destruct (Time_After now (Projectile.Expiry proj)); [done|].
  pose proof (scanPlayers_without_owner id (Projectile.advance proj)
                (moveTo id (Projectile.advance proj) gs) keys Hkeyed) as Hscan.
  simpl in Hscan. unfold moveTo at 1 3 5 7. simpl.
  destruct (scanPlayers _ _ _ {| heap := heap gs |}) as [gs1 tr1],
           (scanPlayers _ _ _ (moveTo _ _ gs)) as [gs2 tr2].
  simpl in *. destruct Hscan as (-> & ? & ? & ?). done.
Qed.

Lemma X12_witness :
  heap duel !! 1%positive = Some alice
  ∧ Projectiles duel !! "p" = Some shot
  ∧ (stepProjectile 16000000%Z ["a"; "b"] "p" (onDisconnect 1%positive duel)).2
    = [EvAdvance "p"; EvTest "p" "b"; EvHit "p" "b"].
Proof.
  assert (H1 : heap duel !! 1%positive = Some alice) by reflexivity.
  assert (H2 : Projectiles duel !! "p" = Some shot) by reflexivity.
  split; [exact H1|]. split; [exact H2|].
  exact (proj1 (X12_projectile_unaffected_by_owner_leaving 16000000%Z
                  ["a"; "b"] "p" duel 1%positive alice shot
                  (proj1 (reachable_keyed duel duel_reachable))
                  H1 H2 eq_refl)).
Defined.

(** ** What a session can do to the store *)

(** X13: the messages of a session, however many, change nothing in the
    store but the position of the session's own player and the projectiles:
    the players map and every other player object stay as they are, the
    session's player keeps its id, its connection and its dead flag (no
    message revives a player), and every projectile found afterwards either
    was there before or is owned by the session's player, stored under a
    uuid the session drew and expiring five seconds after that message. *)
Theorem X13_messages_touch_only_own_position_and_projectiles
    (l : loc) (p : Player.t) (inputs : list Inbound) (gs : GameState) :
  heap gs !! l = Some p →
  let gs' := handleConn_loop l inputs gs in
  Players gs' = Players gs
  ∧ (∀ l', l' ≠ l → heap gs' !! l' = heap gs !! l')
  ∧ (∃ p', heap gs' !! l = Some p'
           ∧ Player.ID p' = Player.ID p
           ∧ Player.Dead p' = Player.Dead p
           ∧ Player.Conn p' = Player.Conn p)
  ∧ (∀ id proj, Projectiles gs' !! id = Some proj →
       Projectiles gs !! id = Some proj
       ∨ (Projectile.Owner proj = Player.ID p
          ∧ Projectile.ID proj = id
          ∧ ∃ i, i ∈ inputs ∧ fresh_uuid i = id
                 ∧ Projectile.Expiry proj = (clock i + 5000000000)%Z)).
Proof. intros Hp gs'. by apply handleConn_loop_inv. Qed.

Lemma X13_witness :
  heap graveyard !! 2%positive = Some (Player.setDead true bob)
  ∧ ∃ p', heap (handleConn_loop 2%positive session_inputs graveyard)
            !! 2%positive = Some p'
          ∧ Player.Dead p' = true.
Proof.
  assert (H : heap graveyard !! 2%positive = Some (Player.setDead true bob))
    by reflexivity.
  split; [exact H|].
  destruct (X13_messages_touch_only_own_position_and_projectiles 2%positive
              (Player.setDead true bob) session_inputs graveyard H)
    as (_ & _ & (p' & Hp' & _ & Hdead & _) & _).
  exists p'. split; [exact Hp'|exact Hdead].
Defined.

(** X14: a player whose connection the broadcast could not write to is
    taken out of the store, but its session goes on until its read fails:
    meanwhile its moves still change its player object without showing in any
    snapshot, and its shots still put projectiles, owned by its id, into the
    store. *)
Theorem X14_dropped_session_still_shoots
    (writeFails : N → bool) (keys : list string) (gs : GameState)
    (k : string) (l : loc) (p : Player.t)
    (msg : ClientAction.t) (projectileID : string) (now : Time) :
  keyed gs →
  is_range (Players gs) keys →
  Players gs !! k = Some l →
  heap gs !! l = Some p →
  writeFails (Player.Conn p) = true →
  let gs1 := sendAll writeFails keys gs in
  let gs2 := onMessage l msg projectileID now gs1 in
  Players gs1 !! k = None
  ∧ detached gs1 l
  ∧ snapPlayers (snapshot gs2) = snapPlayers (snapshot gs1)
  ∧ heap gs2 !! l = Some (applyMove (ClientAction.Move msg) p)
  ∧ (nonzero (Shoot.DX (ClientAction.Shoot msg))
             (Shoot.DY (ClientAction.Shoot msg)) = true →
       ∃ proj, Projectiles gs2 !! projectileID = Some proj
               ∧ Projectile.Owner proj = k).
Proof.
  intros Hkeyed Hrange Hl Hp Hwf gs1 gs2.
  destruct (sendAll_inv writeFails keys gs) as (Hh & _ & HP).
  fold gs1 in Hh, HP.
  assert (HID : Player.ID p = k).
  { destruct (Hkeyed k l Hl) as (p' & Hp' & ?). congruence. }
  assert (Hgone : Players gs1 !! k = None).
  { apply (sendAll_keyed writeFails keys gs Hkeyed k).
    - by eapply is_range_elem.
    - unfold dropped, playerAt. rewrite Hl. simpl. by rewrite Hp. }
  assert (Hdet : detached gs1 l).
  { intros k' Hk'. destruct (HP k') as [E|E]; rewrite E in Hk'; [|done].
    destruct (Hkeyed k' l Hk') as (p' & Hp' & HID').
    assert (k' = k) as -> by congruence.
    destruct (HP k) as [E'|E']; congruence. }
  assert (Hp1 : heap gs1 !! l = Some p) by (by rewrite Hh).
  split_and!; [done|done| | |].
  - apply map_eq. intros k'. rewrite !playerAt_snapshot. unfold playerAt.
    subst gs2. rewrite onMessage_Players.
    destruct (Players gs1 !! k') as [l'|] eqn:Hk'; [simpl|done].
    apply onMessage_other. intros ->. by apply (Hdet k').
  - by apply onMessage_self.
  - intros Hnz. subst gs2. rewrite (onMessage_Projectiles _ _ _ _ _ _ Hp1).
    unfold applyShoot. rewrite Hnz. eexists. split; [apply lookup_insert_eq|].
    simpl. by rewrite applyMove_ID.
Qed.

Lemma X14_witness :
  is_range (Players arena) ["a"; "b"]
  ∧ Players arena !! "b" = Some 2%positive
  ∧ Players (sendAll (N.eqb 2) ["a"; "b"] arena) !! "b"
    = None
  ∧ ∃ proj,
      Projectiles
        (onMessage 2%positive (message 10 20 0 1) "q" 700%Z
           (sendAll (N.eqb 2) ["a"; "b"] arena)) !! "q"
      = Some proj
      ∧ Projectile.Owner proj = "b".
Proof.
  assert (H1 : is_range (Players arena) ["a"; "b"]) by range_check.
  assert (H2 : Players arena !! "b" = Some 2%positive) by reflexivity.
  assert (H3 : heap arena !! 2%positive = Some bob) by reflexivity.
  assert (H4 : N.eqb 2 (Player.Conn bob) = true) by reflexivity.
  destruct (X14_dropped_session_still_shoots (N.eqb 2)
              ["a"; "b"] arena "b" 2%positive bob (message 10 20 0 1) "q"
              700%Z (proj1 (reachable_keyed arena arena_reachable))
              H1 H2 H3 H4)
    as (Hgone & _ & _ & _ & Hshoot).
  split; [exact H1|]. split; [exact H2|]. split; [exact Hgone|].
  exact (Hshoot eq_refl).
Defined.
